(** * Application.py: a runtime instance of a Linux Desktop application

    A shallow embedding of [src/Application.py] (class [Application]) and a
    verification of its construction, merge, split, unique-key and file
    descriptor operations.

    Python objects are mutable and passed by reference, so instances live in
    a heap addressed by locations, and every method that mutates [self] or
    touches the class-level [desktopCache] is a computation in a small
    state-and-exception monad over that heap. *)

From Stdlib Require Import ZArith Lia Bool Ascii String DecimalString Sorted.
From stdpp Require Import base option gmap strings list fin_maps numbers sorting.

Open Scope Z_scope.

(** ** Python values used by the class *)

Module Py.

(** [str] or [None]. *)
Definition ostr := option string.

(** Truth value of a [str]-or-[None] in a condition: [None] and the empty
    string are false. *)
Definition truthy (o : ostr) : bool :=
  match o with
  | Some s => negb (String.eqb s "")
  | None => false
  end.

(** [a or b] on [str]-or-[None] operands with a [str] fallback. *)
Definition or_else (a : ostr) (b : string) : string :=
  match a with
  | Some s => if String.eqb s "" then b else s
  | None => b
  end.

Definition lower_ascii (c : ascii) : ascii :=
  let n := Ascii.nat_of_ascii c in
  if ((65 <=? n)%nat && (n <=? 90)%nat)%bool
  then Ascii.ascii_of_nat (n + 32) else c.

(** [str.lower()], on the ASCII range. *)
Fixpoint lower (s : string) : string :=
  match s with
  | EmptyString => EmptyString
  | String c s' => String (lower_ascii c) (lower s')
  end.

Definition startswith (s p : string) : bool := String.prefix p s.

Definition endswith (s p : string) : bool :=
  let n := String.length s in
  let m := String.length p in
  ((m <=? n)%nat && String.eqb (String.substring (n - m) m s) p)%bool.

(** [s[k:]]. *)
Definition slice_from (k : nat) (s : string) : string :=
  String.substring k (String.length s - k) s.

(** ["%d" % z]. *)
Definition fmt_d (z : Z) : string := NilZero.string_of_int (Z.to_int z).

(** ["%s" % o]: [None] prints as its name. *)
Definition fmt_s (o : ostr) : string :=
  match o with
  | Some s => s
  | None => "None"
  end.

End Py.

(** ** Exceptions raised by the class

    Each [raise] site of the source is a constructor; the Python exception
    class is the prefix of the name. *)

Inductive exn : Type :=
| ValueError_needs_path_or_id      (* __init__, line 66 *)
| ValueError_could_not_initialise  (* __initFromDesktopID, line 119 *)
| ValueError_init_mismatch         (* merge, line 228 *)
| ValueError_pid_mismatch          (* merge, line 232 *)
| ValueError_desktopid_mismatch    (* merge, line 244 *)
| TypeError_not_an_application     (* merge, line 225 *)
| IndexError_events_in_gap         (* split, line 407 *)
| AttributeError (attr : string).  (* lookup of an attribute that is not there *)

#[global] Instance exn_eq_dec : EqDecision exn.
Proof. solve_decision. Defined.

(** ** Events and the time-sorted event list *)

(** [Event] is defined in another module of the program; this class reads
    only its [time] attribute and compares events as objects. [eid] stands
    for the object identity. *)
Record Event : Type := mkEvent {
  eid : nat;
  time : Z;
  kind : string;
}.

#[global] Instance Event_eq_dec : EqDecision Event.
Proof. solve_decision. Defined.

(** [blist.sortedlist(key=lambda i: i.time)]: a list kept in ascending key
    order. The container comes from the [blist] package; its operations are
    modelled by the bisection loops of that package. *)
Module sortedlist.

Abbreviation t := (list Event).

Definition sorted (l : t) : Prop :=
  StronglySorted (fun a b => time a <= time b) l.

(** [while lo < hi: mid = (lo+hi)//2; if key(l[mid]) < key: lo = mid+1
    else: hi = mid]. *)
Fixpoint bisect_left_loop (fuel : nat) (l : t) (key : Z) (lo hi : nat) : nat :=
  match fuel with
  | O => lo
  | S fuel' =>
      if (lo <? hi)%nat then
        let mid := ((lo + hi) / 2)%nat in
        match l !! mid with
        | Some e =>
            if time e <? key
            then bisect_left_loop fuel' l key (mid + 1)%nat hi
            else bisect_left_loop fuel' l key lo mid
        | None => lo
        end
      else lo
  end.

(** [while lo < hi: mid = (lo+hi)//2; if key < key(l[mid]): hi = mid
    else: lo = mid+1]. *)
Fixpoint bisect_right_loop (fuel : nat) (l : t) (key : Z) (lo hi : nat) : nat :=
  match fuel with
  | O => lo
  | S fuel' =>
      if (lo <? hi)%nat then
        let mid := ((lo + hi) / 2)%nat in
        match l !! mid with
        | Some e =>
            if key <? time e
            then bisect_right_loop fuel' l key lo mid
            else bisect_right_loop fuel' l key (mid + 1)%nat hi
        | None => lo
        end
      else lo
  end.

(** The probe passed by the callers is an [Event] built for its time
    only, so the functions take the key. *)
Definition bisect_left (l : t) (key : Z) : nat :=
  bisect_left_loop (length l) l key 0 (length l).

Definition bisect_right (l : t) (key : Z) : nat :=
  bisect_right_loop (length l) l key 0 (length l).

(** [l.add(e)]: insert after the entries with the same key. *)
Definition add (l : t) (e : Event) : t :=
  let i := bisect_right l (time e) in
  take i l ++ e :: drop i l.

(** [l.update(iterable)]. *)
Definition update (l : t) (es : list Event) : t := foldl add l es.

(** [l[:i]] and [l[i:]]. *)
Definition slice_to (i : nat) (l : t) : t := take i l.
Definition slice_from (i : nat) (l : t) : t := drop i l.

End sortedlist.

(** ** Instances of the class *)

(** An entry of the file descriptor table:
    (path, time of opening, time of closing), 0 meaning not closed. *)
Definition fdentry : Type := string * Z * Z.

Record Application : Type := mkApplication {
  init : bool;
  desktopid : Py.ostr;
  interpreterid : Py.ostr;
  path : Py.ostr;
  pid : Z;
  tstart : Z;
  tend : Z;
  cmdline : Py.ostr;
  events : sortedlist.t;
  fds : gmap Z (list fdentry);
  _uid : string;
}.

(** Attribute assignment [self.f = v]. *)
Definition set_desktopid (v : Py.ostr) (a : Application) : Application :=
  mkApplication (init a) v (interpreterid a) (path a) (pid a) (tstart a)
                (tend a) (cmdline a) (events a) (fds a) (_uid a).
Definition set_interpreterid (v : Py.ostr) (a : Application) : Application :=
  mkApplication (init a) (desktopid a) v (path a) (pid a) (tstart a)
                (tend a) (cmdline a) (events a) (fds a) (_uid a).
Definition set_path (v : Py.ostr) (a : Application) : Application :=
  mkApplication (init a) (desktopid a) (interpreterid a) v (pid a) (tstart a)
                (tend a) (cmdline a) (events a) (fds a) (_uid a).
Definition set_tstart (v : Z) (a : Application) : Application :=
  mkApplication (init a) (desktopid a) (interpreterid a) (path a) (pid a) v
                (tend a) (cmdline a) (events a) (fds a) (_uid a).
Definition set_tend (v : Z) (a : Application) : Application :=
  mkApplication (init a) (desktopid a) (interpreterid a) (path a) (pid a)
                (tstart a) v (cmdline a) (events a) (fds a) (_uid a).
Definition set_cmdline (v : Py.ostr) (a : Application) : Application :=
  mkApplication (init a) (desktopid a) (interpreterid a) (path a) (pid a)
                (tstart a) (tend a) v (events a) (fds a) (_uid a).
Definition set_events (v : sortedlist.t) (a : Application) : Application :=
  mkApplication (init a) (desktopid a) (interpreterid a) (path a) (pid a)
                (tstart a) (tend a) (cmdline a) v (fds a) (_uid a).
Definition set_fds (v : gmap Z (list fdentry)) (a : Application) : Application :=
  mkApplication (init a) (desktopid a) (interpreterid a) (path a) (pid a)
                (tstart a) (tend a) (cmdline a) (events a) v (_uid a).
Definition set__uid (v : string) (a : Application) : Application :=
  mkApplication (init a) (desktopid a) (interpreterid a) (path a) (pid a)
                (tstart a) (tend a) (cmdline a) (events a) (fds a) v.

(** *** Methods that touch [self] only

    They are functions from the instance before the call to the instance
    after it (and a result, for the getters). *)

(** ["%s:%d:%d" % (desktopid, pid, tstart)]. *)
Definition uid_of (d : Py.ostr) (p t : Z) : string :=
  (Py.fmt_s d ++ ":" ++ Py.fmt_d p ++ ":" ++ Py.fmt_d t)%string.

Definition _regenUid (self : Application) : Application :=
  set__uid (uid_of (desktopid self) (pid self) (tstart self)) self.

Definition uid (self : Application) : string := _uid self.

Definition isInitialised (self : Application) : bool := init self.
Definition getDesktopId (self : Application) : Py.ostr := desktopid self.
Definition getInterpreterId (self : Application) : Py.ostr := interpreterid self.
Definition getPid (self : Application) : Z := pid self.
Definition getTimeOfStart (self : Application) : Z := tstart self.
Definition getTimeOfEnd (self : Application) : Z := tend self.

Definition setTimeOfStart (val : Z) (self : Application) : Application :=
  set_tstart val self.

Definition setTimeOfEnd (val : Z) (self : Application) : Application :=
  set_tend val self.

Definition setCommandLine (cmd : Py.ostr) (self : Application) : Application :=
  set_cmdline cmd self.

Definition getCommandLine (self : Application) : Py.ostr := cmdline self.

Definition clearEvents (self : Application) : Application :=
  set_events [] self.

Definition clearFDs (self : Application) : Application :=
  set_fds ∅ self.

Definition addEvent (event : Event) (self : Application) : Application :=
  set_events (sortedlist.add (events self) event) self.

(** *** The file descriptor table *)

Section FileDescriptors.

(** [FileFactory.get().resolveFDRef], of another module of the program. *)
Context (resolveFDRef : string → Z → Py.ostr).

(** The sanity check before the append only prints a message. *)
Definition openFD (fd : Z) (path : string) (time : Z)
    (self : Application) : Application :=
  let fdList := default [] (fds self !! fd) in
  let path :=
    if Py.startswith path "@"
    then Py.or_else (resolveFDRef path time) path
    else path in
  let fdList := fdList ++ [(path, time, 0)] in
  set_fds (<[fd := fdList]> (fds self)) self.

Definition closeFD (fd : Z) (time : Z) (self : Application) : Application :=
  match fds self !! fd with
  | Some fdList =>
      match list.last fdList with
      | Some (p, t0, t1) =>
          if t1 =? 0 then
            let fdList := <[pred (length fdList) := (p, t0, time)]> fdList in
            set_fds (<[fd := fdList]> (fds self)) self
          else self
      | None => self
      end
  | None => self
  end.

(** The loop of [resolveFD]: the first entry whose range holds [time]. *)
Fixpoint resolveFD_scan (l : list fdentry) (time : Z) : Py.ostr :=
  match l with
  | [] => None
  | (path, tstart, tend) :: l' =>
      if ((tstart <=? time) && ((tend =? 0) || (time <=? tend)))%bool
      then Some path
      else resolveFD_scan l' time
  end.

Definition resolveFD (fd : Z) (time : Z) (self : Application) : Py.ostr :=
  match fds self !! fd with
  | None | Some [] => None
  | Some l => resolveFD_scan l time
  end.

(** A call on the table. *)
Inductive fdcall : Type :=
| Open (fd : Z) (path : string) (time : Z)
| Close (fd : Z) (time : Z).

Definition do_fdcall (self : Application) (c : fdcall) : Application :=
  match c with
  | Open fd p t => openFD fd p t self
  | Close fd t => closeFD fd t self
  end.

Definition do_fdcalls (cs : list fdcall) (self : Application) : Application :=
  foldl do_fdcall self cs.

End FileDescriptors.

(** ** The heap of instances and the class-level state *)

Definition loc := nat.

(** The content of an [xdg.DesktopEntry]: group, key, value. *)
Definition DesktopEntry : Type := gmap string (gmap string string).

(** [DesktopEntry.DesktopEntry()]. *)
Definition DesktopEntry_new : DesktopEntry := ∅.

(** [heap] holds the instances; [desktopCache] is the class attribute of
    the same name, whose keys are strings or [None]; [probed] records the
    argument of every [de.parse] call, in order, so that accesses to the
    descriptor store can be counted. *)
Record world : Type := mkWorld {
  heap : gmap loc Application;
  desktopCache : gmap Py.ostr (Py.ostr * DesktopEntry);
  probed : list string;
}.

Definition world0 : world := mkWorld ∅ ∅ [].

(** Computations that read and write the world and may raise. A raised
    exception keeps the writes made before it. *)
Definition M (A : Type) : Type := world → (exn + A) * world.

#[global] Instance M_ret : MRet M := λ A x w, (inr x, w).

#[global] Instance M_bind : MBind M := λ A B f m w,
  match m w with
  | (inl e, w') => (inl e, w')
  | (inr x, w') => f x w'
  end.

Definition raise {A : Type} (e : exn) : M A := λ w, (inl e, w).

(** [isinstance(l, Application)]. *)
Definition isinstance_Application (l : loc) : M bool :=
  λ w, (inr (bool_decide (is_Some (heap w !! l))), w).

(** [l.f], for an attribute or a getter [f]. *)
Definition getattr {A : Type} (l : loc) (f : Application → A) : M A :=
  λ w, match heap w !! l with
       | Some a => (inr (f a), w)
       | None => (inl TypeError_not_an_application, w)
       end.

(** A call [l.f(...)] of a method that touches [l] only, or an assignment
    to one of its attributes. *)
Definition update (l : loc) (f : Application → Application) : M unit :=
  λ w, match heap w !! l with
       | Some a => (inr tt, mkWorld (<[l := f a]> (heap w)) (desktopCache w) (probed w))
       | None => (inl TypeError_not_an_application, w)
       end.

(** A new object, at an address not in use. *)
Definition alloc (a : Application) : M loc :=
  λ w, let l := fresh (dom (heap w)) in
       (inr l, mkWorld (<[l := a]> (heap w)) (desktopCache w) (probed w)).

(** [set(xs)] with the members of [seen] left out: events are compared as
    objects. The order of iteration over a Python set is not specified;
    the order of [xs] is taken. *)
Fixpoint set_of (seen : list nat) (xs : list Event) : list Event :=
  match xs with
  | [] => []
  | e :: xs' =>
      if bool_decide (eid e ∈ seen) then set_of seen xs'
      else e :: set_of (eid e :: seen) xs'
  end.

(** [list(set(xs) - set(ys))]. *)
Definition set_minus (xs ys : list Event) : list Event :=
  set_of (eid <$> ys) xs.

(** *** merge *)

Definition merge (self other : loc) : M loc :=
  isapp ← isinstance_Application other;
  if negb isapp then raise TypeError_not_an_application else
  s_init ← getattr self init;
  o_init ← getattr other init;
  if negb (Bool.eqb s_init o_init) then raise ValueError_init_mismatch else
  s_pid ← getattr self pid;
  o_pid ← getattr other pid;
  if negb (s_pid =? o_pid) then raise ValueError_pid_mismatch else
  s_id ← getattr self desktopid;
  o_id ← getattr other desktopid;
  (if bool_decide (s_id ≠ o_id) then
     s_int ← getattr self interpreterid;
     if bool_decide (s_int = o_id) then mret tt else
     o_int ← getattr other interpreterid;
     if bool_decide (s_id = o_int) then
       v ← getattr other desktopid;
       update self (set_desktopid v);;
       update self _regenUid;;
       v ← getattr other interpreterid;
       update self (set_interpreterid v)
     else raise ValueError_desktopid_mismatch
   else mret tt);;
  s_path ← getattr self path;
  o_path ← getattr other path;
  (if negb (Py.truthy s_path) && Py.truthy o_path
   then v ← getattr other path; update self (set_path v)
   else mret tt);;
  s_cmd ← getattr self cmdline;
  o_cmd ← getattr other cmdline;
  (if negb (Py.truthy s_cmd) && Py.truthy o_cmd
   then v ← getattr other cmdline; update self (set_cmdline v)
   else mret tt);;
  o_ts ← getattr other getTimeOfStart;
  s_ts ← getattr self getTimeOfStart;
  update self (setTimeOfStart (Z.min o_ts s_ts));;
  o_te ← getattr other getTimeOfEnd;
  s_te ← getattr self getTimeOfEnd;
  update self (setTimeOfEnd (Z.max o_te s_te));;
  o_ev ← getattr other events;
  s_ev ← getattr self events;
  update self (λ a, set_events (sortedlist.update (events a) (set_minus o_ev s_ev)) a);;
  update self _regenUid;;
  mret self.

(** *** split *)

(** [deepcopy(l)]: a new object with the same attribute values. The copies
    of the events made along are dropped at once by the callers, which
    assign a slice of the original list. *)
Definition deepcopy (l : loc) : M loc :=
  a ← getattr l id;
  alloc a.

Definition split (self : loc) (beforeEnd afterStart : Z) : M (loc * loc) :=
  evs ← getattr self events;
  let il := sortedlist.bisect_left evs beforeEnd in
  let ir := sortedlist.bisect_right evs afterStart in
  if negb (il =? ir)%nat then raise IndexError_events_in_gap else
  appLeft ← deepcopy self;
  evs ← getattr self events;
  update appLeft (set_events (sortedlist.slice_to il evs));;
  l_ev ← getattr appLeft events;
  (match list.last l_ev with
   | Some e => update appLeft (set_tend (time e))
   | None => mret tt
   end);;
  appRight ← deepcopy self;
  evs ← getattr self events;
  update appRight (set_events (sortedlist.slice_from ir evs));;
  r_ev ← getattr appRight events;
  (match head r_ev with
   | Some e => update appRight (set_tstart (time e))
   | None => mret tt
   end);;
  mret (appLeft, appRight).

(** *** Desktop identifiers and construction *)

Section Resolver.

(** [constants.DESKTOPPATHS]; [os.path.realpath]; whether
    [DesktopEntry.parse] loads a file, and what; the first group of
    [constants.DESKTOPIDRE] matched at the start of a path, when the
    pattern matches. These belong to other modules and to the file
    system. *)
Context (DESKTOPPATHS : list string).
Context (realpath : string → string).
Context (parse : string → option DesktopEntry).
Context (desktopre_group0 : string → option string).

(** The path tried in one search location. *)
Definition depath_of (path desktopid : string) : string :=
  if negb (Py.endswith desktopid ".desktop")
  then realpath (path ++ desktopid ++ ".desktop")
  else realpath (path ++ desktopid).

(** The paths tried for a token, in the order of the search locations. *)
Definition candidates (token : string) : list string :=
  (λ p, depath_of p token) <$> DESKTOPPATHS.

(** [de.parse(depath)]: [None] stands for [ParsingError], which is taken
    to leave [de] as it was. *)
Definition de_parse (depath : string) : M (option DesktopEntry) :=
  λ w, (inr (parse depath),
        mkWorld (heap w) (desktopCache w) (probed w ++ [depath])).

(** The [for path in DESKTOPPATHS] loop of [__getDesktopFile]. When the
    pattern does not match, [res] is [None] and [res.groups()] raises
    [AttributeError], which the handler for [ValueError] and [KeyError]
    does not catch. *)
Fixpoint probe (paths : list string) (desktopid : string)
    (de : DesktopEntry) : M (Py.ostr * DesktopEntry) :=
  match paths with
  | [] => mret (None, de)
  | path :: paths' =>
      let depath := depath_of path desktopid in
      r ← de_parse depath;
      match r with
      | None => probe paths' desktopid de
      | Some de' =>
          match desktopre_group0 depath with
          | Some g => mret (Some (Py.lower g), de')
          | None => raise (AttributeError "groups")
          end
      end
  end.

Definition cache_get (k : Py.ostr) : M (option (Py.ostr * DesktopEntry)) :=
  λ w, (inr (desktopCache w !! k), w).

Definition cache_set (k : Py.ostr) (v : Py.ostr * DesktopEntry) : M unit :=
  λ w, (inr tt, mkWorld (heap w) (<[k := v]> (desktopCache w)) (probed w)).

(** A cached pair is a non-empty tuple, so it is true when present. *)
Definition __getDesktopFile (desktopid : string) : M (Py.ostr * DesktopEntry) :=
  c ← cache_get (Some desktopid);
  match c with
  | None =>
      r ← probe DESKTOPPATHS desktopid DesktopEntry_new;
      cache_set r.1 r;;
      mret r
  | Some r => mret r
  end.

(** [uri[14:] if uri.startswith("application://") else uri]. *)
Definition defile_of (uri : string) : string :=
  if Py.startswith uri "application://" then Py.slice_from 14 uri else uri.

Definition getDesktopIdFromDesktopUri (uri : string)
    : M (Py.ostr * option DesktopEntry) :=
  if negb (Py.truthy (Some uri)) then mret (None, None) else
  r ← __getDesktopFile (defile_of uri);
  mret (r.1, Some r.2).

(** [__initFromDesktopID], on the value of [self.desktopid]; the result is
    the new [self.desktopid], and [self.init] becomes [True]. *)
Definition __initFromDesktopID (desktopid : string) : M string :=
  r ← getDesktopIdFromDesktopUri desktopid;
  match r.1 with
  | Some did =>
      if String.eqb did "" then raise ValueError_could_not_initialise
      else mret did
  | None => raise ValueError_could_not_initialise
  end.

(** [Application(desktopid, path, pid, tstart, tend, interpreterid)].
    The object under construction is reachable only once [__init__]
    returns, so it enters the heap at the end. The class has no method
    [__initFromPath]: the call on line 64 fails on the attribute lookup. *)
Definition __init__ (desktopid path : Py.ostr) (pid tstart tend : Z)
    (interpreterid : Py.ostr) : M loc :=
  did ←
    (if Py.truthy desktopid then
       did ← __initFromDesktopID (Py.lower (default "" desktopid));
       mret (Some did)
     else if Py.truthy path then
       raise (AttributeError "_Application__initFromPath")
     else raise ValueError_needs_path_or_id);
  let interpreterid :=
    if Py.truthy interpreterid then Py.lower <$> interpreterid else None in
  alloc (_regenUid
           (mkApplication true did interpreterid None pid tstart tend None
                          [] ∅ "")).

End Resolver.

(** *** What merge and split compute

    The outcome of [merge] and of [split] as functions of the instances
    read at the start of the call. The lemmas [merge_run] and [split_run]
    below relate them to the statement-by-statement definitions above, for
    every heap, including the call [a.merge(a)]. *)

Definition merged (s o : Application) : exn + Application :=
  if negb (Bool.eqb (init s) (init o)) then inl ValueError_init_mismatch else
  if negb (pid s =? pid o) then inl ValueError_pid_mismatch else
  let indirect :=
    bool_decide (desktopid s ≠ desktopid o)
    && negb (bool_decide (interpreterid s = desktopid o)) in
  if indirect && negb (bool_decide (desktopid s = interpreterid o))
  then inl ValueError_desktopid_mismatch else
  inr (_regenUid
         (mkApplication
            (init s)
            (if indirect then desktopid o else desktopid s)
            (if indirect then interpreterid o else interpreterid s)
            (if negb (Py.truthy (path s)) && Py.truthy (path o)
             then path o else path s)
            (pid s)
            (Z.min (tstart o) (tstart s))
            (Z.max (tend o) (tend s))
            (if negb (Py.truthy (cmdline s)) && Py.truthy (cmdline o)
             then cmdline o else cmdline s)
            (sortedlist.update (events s) (set_minus (events o) (events s)))
            (fds s)
            (_uid s))).

Definition split_left (s : Application) (il : nat) : Application :=
  let evs := sortedlist.slice_to il (events s) in
  match list.last evs with
  | Some e => set_tend (time e) (set_events evs s)
  | None => set_events evs s
  end.

Definition split_right (s : Application) (ir : nat) : Application :=
  let evs := sortedlist.slice_from ir (events s) in
  match head evs with
  | Some e => set_tstart (time e) (set_events evs s)
  | None => set_events evs s
  end.

Definition with_heap (h : gmap loc Application) (w : world) : world :=
  mkWorld h (desktopCache w) (probed w).

(** The three preconditions of [merge] on the two instances. *)
Definition mergeable (s o : Application) : Prop :=
  init s = init o ∧ pid s = pid o
  ∧ (desktopid s = desktopid o
     ∨ interpreterid s = desktopid o
     ∨ desktopid s = interpreterid o).

(** The unique key agrees with the attributes it is made of. *)
Definition uid_consistent (a : Application) : Prop :=
  uid a = uid_of (desktopid a) (pid a) (tstart a).

(** The time [t] is in the range of an entry of the table: not before
    its opening and, when it is closed, not after its closing. *)
Definition in_range (e : fdentry) (t : Z) : Prop :=
  e.1.2 ≤ t ∧ (e.2 = 0 ∨ t ≤ e.2).

(** ** Instances and worlds used in the examples *)

Module Examples.

(** [Application("ristretto", pid=21, tstart=0, tend=300)] once its
    identifier is resolved, with one event at time 140. *)
Definition ristretto : Application :=
  addEvent (mkEvent 0 140 "file-create")
    (_regenUid
       (mkApplication true (Some "ristretto") None None 21 0 300 None [] ∅ "")).

Definition w_ristretto : world := mkWorld {[ 0%nat := ristretto ]} ∅ [].

(** The same process seen twice: once still running, once ended. *)
Definition running : Application :=
  _regenUid (mkApplication true (Some "ristretto") None None 21 10 0 None [] ∅ "").

Definition ended : Application :=
  _regenUid (mkApplication true (Some "ristretto") None None 21 50 300 None [] ∅ "").

Definition w_running_ended : world :=
  mkWorld {[ 0%nat := running; 1%nat := ended ]} ∅ [].

(** A script and the interpreter that runs it. *)
Definition script : Application :=
  _regenUid
    (mkApplication true (Some "myscript") (Some "python") None 7 0 0 None [] ∅ "").

Definition interpreter : Application :=
  _regenUid (mkApplication true (Some "python") None None 7 0 0 None [] ∅ "").

Definition w_script_interpreter : world :=
  mkWorld {[ 0%nat := script; 1%nat := interpreter ]} ∅ [].

Definition w_interpreter_script : world :=
  mkWorld {[ 0%nat := interpreter; 1%nat := script ]} ∅ [].

(** A descriptor store with two search locations and one descriptor. *)
Definition paths : list string :=
  ["/usr/share/applications/"; "/usr/local/share/applications/"].

Definition parse (p : string) : option DesktopEntry :=
  if String.eqb p "/usr/share/applications/ristretto.desktop"
  then Some {[ "Desktop Entry" := {[ "Type" := "Application" ]} ]}
  else None.

Definition group0 (p : string) : option string :=
  if String.eqb p "/usr/share/applications/ristretto.desktop"
  then Some "ristretto" else None.

Definition new_Application : Py.ostr → Py.ostr → Z → Z → Z → Py.ostr → M loc :=
  __init__ paths id parse group0.

End Examples.

(** ** Further methods and notions used in the verification *)

(** Every pair of the cache is stored under its own first component: this
    is how [__getDesktopFile] writes it (line 99). *)
Definition cache_wf (w : world) : Prop :=
  ∀ k v, desktopCache w !! k = Some v → v.1 = k.

(** The number of [openFD] calls on a descriptor in a sequence of calls. *)
Definition is_open_of (fd : Z) (c : fdcall) : bool :=
  match c with
  | Open fd' _ _ => fd' =? fd
  | Close _ _ => false
  end.

Definition opens_of (fd : Z) (cs : list fdcall) : nat :=
  length (List.filter (is_open_of fd) cs).

(** The path that [openFD] stores: a reference starting with [@] is
    replaced by what [resolveFDRef] returns for it, when that is a
    non-empty string. *)
Definition stored_path (resolveFDRef : string → Z → Py.ostr)
    (path : string) (time : Z) : string :=
  if Py.startswith path "@"
  then Py.or_else (resolveFDRef path time) path
  else path.

(** *** hasSameDesktopId *)

(** The exceptions of [hasSameDesktopId]: the [raise] of line 173, and
    the two that come from [Application.desktopre.match(otherId)] and
    [res.groups()] when [otherId] is [None] or the pattern does not match
    (neither is a [ValueError] or a [KeyError], so the handler of line 182
    lets them through). *)
Inductive cmp_exn : Type :=
| AttributeError_needs_instance
| TypeError_expected_string
| AttributeError_no_groups.

Section SameDesktopId.

(** [Application.desktopre.match(s)]: [None] when the pattern does not
    match, else the value of [res.groups()[0]], which is [None] for a
    group that took no part in the match. *)
Context (desktopre_match : string → option Py.ostr).

(** [other] is an instance (it has the two attributes tested on line 169)
    or a string. The method reads its arguments only. *)
Definition hasSameDesktopId (self : Application) (other : Application + string)
    (resolveInterpreter : bool) : cmp_exn + bool :=
  match other with
  | inl o =>
      match desktopid o with
      | None => inl TypeError_expected_string
      | Some otherId =>
          match desktopre_match otherId with
          | None => inl AttributeError_no_groups
          | Some otherName =>
              inr (if bool_decide (desktopid self = otherName) then true
                   else if resolveInterpreter
                           && bool_decide (interpreterid self = otherName)
                   then true
                   else if resolveInterpreter
                           && bool_decide (desktopid self = interpreterid o)
                   then true
                   else false)
          end
      end
  | inr s =>
      if resolveInterpreter then inl AttributeError_needs_instance else
      match desktopre_match (Py.lower s) with
      | None => inl AttributeError_no_groups
      | Some otherName => inr (bool_decide (desktopid self = otherName))
      end
  end.

End SameDesktopId.

(** ** More instances and worlds for the examples *)

Module Examples2.

(** Another application with the pid of the running one. *)
Definition gedit : Application :=
  _regenUid (mkApplication true (Some "gedit") None None 21 50 300 None [] ∅ "").

Definition w_running_gedit : world :=
  mkWorld {[ 0%nat := Examples.running; 1%nat := gedit ]} ∅ [].

(** The ended instance, with the path of its binary. *)
Definition ended_with_path : Application :=
  set_path (Some "/usr/bin/ristretto") Examples.ended.

Definition w_running_ended_path : world :=
  mkWorld {[ 0%nat := Examples.running; 1%nat := ended_with_path ]} ∅ [].

(** Two instances of one process with events of their own. *)
Definition early : Application :=
  addEvent (mkEvent 2 30 "file-read")
    (addEvent (mkEvent 1 20 "file-open") Examples.running).

Definition late : Application :=
  addEvent (mkEvent 3 60 "file-close")
    (addEvent (mkEvent 2 30 "file-read") Examples.ended).

Definition w_early_late : world :=
  mkWorld {[ 0%nat := early; 1%nat := late ]} ∅ [].

Definition w_early : world := mkWorld {[ 0%nat := early ]} ∅ [].

End Examples2.

(** The descriptor a call is about. *)
Definition fd_of (c : fdcall) : Z :=
  match c with
  | Open fd _ _ => fd
  | Close fd _ => fd
  end.


(** The search locations of [Examples.paths] in the other order: the
    descriptor of the examples is in the second one. *)
Definition paths_rev : list string :=
  ["/usr/local/share/applications/"; "/usr/share/applications/"].

(** A string of ASCII characters only. On such a string [str.lower()]
    changes the letters A to Z and nothing else, as [Py.lower] does. *)
Fixpoint is_ascii (s : string) : bool :=
  match s with
  | EmptyString => true
  | String c s' => (Ascii.nat_of_ascii c <? 128)%nat && is_ascii s'
  end.

(** *** The intervals of a handle after a sequence of calls

    Written from the description of the table, for one handle and
    without the table: [open] appends a new interval (locator, time,
    unbounded), the locator being the one that [stored_path] gives;
    [close] sets the close time of the last interval if it is still open,
    and is a no-op otherwise; calls on other handles do nothing. *)

Definition close_last (t : Z) (l : list fdentry) : list fdentry :=
  match list.last l with
  | Some (p, t0, t1) =>
      if t1 =? 0 then <[pred (length l) := (p, t0, t)]> l else l
  | None => l
  end.

Section Intervals.

Context (resolveFDRef : string → Z → Py.ostr).

Definition step_intervals (fd : Z) (l : list fdentry) (c : fdcall)
    : list fdentry :=
  match c with
  | Open fd' p t =>
      if fd' =? fd then l ++ [(stored_path resolveFDRef p t, t, 0)] else l
  | Close fd' t => if fd' =? fd then close_last t l else l
  end.

Definition intervals_of (fd : Z) (calls : list fdcall) : list fdentry :=
  foldl (step_intervals fd) [] calls.

(** The locator and the time of each [open] on the handle, in the order
    of the calls. *)
Definition opened_of (fd : Z) (calls : list fdcall) : list (string * Z) :=
  omap (λ c, match c with
             | Open fd' p t =>
                 if fd' =? fd then Some (stored_path resolveFDRef p t, t)
                 else None
             | Close _ _ => None
             end) calls.

End Intervals.

(** * Verification *)

(** ** The sorted list *)

Module sortedlist_facts.
Import sortedlist.

Lemma sorted_lookup (l : t) (i j : nat) (a b : Event) :
  sorted l → (i ≤ j)%nat → l !! i = Some a → l !! j = Some b →
  time a ≤ time b.
Proof.
  unfold sorted in *. intros Hs. revert i j. induction Hs as [|x l Hs IH Hx]; intros i j Hij Ha Hb.
  - destruct i; discriminate.
  - destruct i as [|i], j as [|j]; simpl in *; simplify_eq; try lia.
    + rewrite Forall_forall in Hx. apply Hx.
      eapply list_elem_of_lookup_2; eauto.
    + eapply IH; [|eauto..]. lia.
Qed.

Lemma bisect_left_loop_spec (fuel : nat) (l : t) (key : Z) (lo hi : nat) :
  sorted l →
  (lo ≤ hi ≤ length l)%nat → (hi - lo ≤ fuel)%nat →
  (∀ i e, (i < lo)%nat → l !! i = Some e → time e < key) →
  (∀ i e, (hi ≤ i)%nat → l !! i = Some e → key ≤ time e) →
  ∀ i e, l !! i = Some e →
    (i < bisect_left_loop fuel l key lo hi)%nat ↔ time e < key.
Proof.
  intros Hs. revert lo hi.
  induction fuel as [|fuel IH]; intros lo hi Hb Hf Hlo Hhi i e Hi; cbn [bisect_left_loop].
  - assert (lo = hi) by lia. subst hi.
    split; [intros; eauto|].
    intros Hlt. destruct (decide (i < lo)%nat); [done|].
    assert (key ≤ time e) by (eapply Hhi; [|eauto]; lia). lia.
  - destruct (Nat.ltb_spec lo hi) as [Hlt|Hge].
    + set (mid := ((lo + hi) / 2)%nat).
      assert (lo ≤ mid < hi)%nat as Hmid.
      { subst mid. split.
        - apply Nat.div_le_lower_bound; lia.
        - apply Nat.Div0.div_lt_upper_bound; lia. }
      destruct (lookup_lt_is_Some_2 l mid) as [m Hm]; [lia|].
      rewrite Hm. destruct (Z.ltb_spec (time m) key) as [Hk|Hk].
      * apply IH; auto; try lia.
        intros i' e' Hi' He'.
        assert (time e' ≤ time m); [|lia].
        eapply (sorted_lookup l i' mid); eauto. lia.
      * apply IH; auto; try lia.
        intros i' e' Hi' He'.
        assert (time m ≤ time e'); [|lia].
        eapply (sorted_lookup l mid i'); eauto.
    + assert (lo = hi) by lia. subst hi.
      split; [intros; eauto|].
      intros Hlt. destruct (decide (i < lo)%nat); [done|].
      assert (key ≤ time e) by (eapply Hhi; [|eauto]; lia). lia.
Qed.

Lemma bisect_right_loop_spec (fuel : nat) (l : t) (key : Z) (lo hi : nat) :
  sorted l →
  (lo ≤ hi ≤ length l)%nat → (hi - lo ≤ fuel)%nat →
  (∀ i e, (i < lo)%nat → l !! i = Some e → time e ≤ key) →
  (∀ i e, (hi ≤ i)%nat → l !! i = Some e → key < time e) →
  ∀ i e, l !! i = Some e →
    (i < bisect_right_loop fuel l key lo hi)%nat ↔ time e ≤ key.
Proof.
  intros Hs. revert lo hi.
  induction fuel as [|fuel IH]; intros lo hi Hb Hf Hlo Hhi i e Hi;
    cbn [bisect_right_loop].
  - assert (lo = hi) by lia. subst hi.
    split; [intros; eauto|].
    intros Hle. destruct (decide (i < lo)%nat); [done|].
    assert (key < time e) by (eapply Hhi; [|eauto]; lia). lia.
  - destruct (Nat.ltb_spec lo hi) as [Hlt|Hge].
    + set (mid := ((lo + hi) / 2)%nat).
      assert (lo ≤ mid < hi)%nat as Hmid.
      { subst mid. split.
        - apply Nat.div_le_lower_bound; lia.
        - apply Nat.Div0.div_lt_upper_bound; lia. }
      destruct (lookup_lt_is_Some_2 l mid) as [m Hm]; [lia|].
      rewrite Hm. destruct (Z.ltb_spec key (time m)) as [Hk|Hk].
      * apply IH; auto; try lia.
        intros i' e' Hi' He'.
        assert (time m ≤ time e'); [|lia].
        eapply (sorted_lookup l mid i'); eauto.
      * apply IH; auto; try lia.
        intros i' e' Hi' He'.
        assert (time e' ≤ time m); [|lia].
        eapply (sorted_lookup l i' mid); eauto. lia.
    + assert (lo = hi) by lia. subst hi.
      split; [intros; eauto|].
      intros Hle. destruct (decide (i < lo)%nat); [done|].
      assert (key < time e) by (eapply Hhi; [|eauto]; lia). lia.
Qed.

(** On a sorted list, [bisect_left] is the number of entries before
    [key], and they come first. *)
Lemma bisect_left_spec (l : t) (key : Z) (i : nat) (e : Event) :
  sorted l → l !! i = Some e →
  (i < bisect_left l key)%nat ↔ time e < key.
Proof.
  intros Hs Hi. unfold bisect_left.
  apply bisect_left_loop_spec; auto; try lia.
  intros j x Hj Hx. apply lookup_lt_Some in Hx. lia.
Qed.

Lemma bisect_right_spec (l : t) (key : Z) (i : nat) (e : Event) :
  sorted l → l !! i = Some e →
  (i < bisect_right l key)%nat ↔ time e ≤ key.
Proof.
  intros Hs Hi. unfold bisect_right.
  apply bisect_right_loop_spec; auto; try lia.
  intros j x Hj Hx. apply lookup_lt_Some in Hx. lia.
Qed.

Lemma bisect_left_loop_bound (fuel : nat) (l : t) (key : Z) (lo hi : nat) :
  (lo ≤ hi)%nat → (lo ≤ bisect_left_loop fuel l key lo hi ≤ hi)%nat.
Proof.
  revert lo hi. induction fuel as [|fuel IH]; intros lo hi Hb;
    cbn [bisect_left_loop]; [lia|].
  destruct (Nat.ltb_spec lo hi) as [Hlt|Hge]; [|lia].
  assert (lo ≤ (lo + hi) / 2 < hi)%nat as Hmid.
  { split.
    - apply Nat.div_le_lower_bound; lia.
    - apply Nat.Div0.div_lt_upper_bound; lia. }
  destruct (l !! _) as [m|]; [|lia].
  destruct (time m <? key).
  - specialize (IH ((lo + hi) / 2 + 1)%nat hi). lia.
  - specialize (IH lo ((lo + hi) / 2)%nat). lia.
Qed.

Lemma bisect_right_loop_bound (fuel : nat) (l : t) (key : Z) (lo hi : nat) :
  (lo ≤ hi)%nat → (lo ≤ bisect_right_loop fuel l key lo hi ≤ hi)%nat.
Proof.
  revert lo hi. induction fuel as [|fuel IH]; intros lo hi Hb;
    cbn [bisect_right_loop]; [lia|].
  destruct (Nat.ltb_spec lo hi) as [Hlt|Hge]; [|lia].
  assert (lo ≤ (lo + hi) / 2 < hi)%nat as Hmid.
  { split.
    - apply Nat.div_le_lower_bound; lia.
    - apply Nat.Div0.div_lt_upper_bound; lia. }
  destruct (l !! _) as [m|]; [|lia].
  destruct (key <? time m).
  - specialize (IH lo ((lo + hi) / 2)%nat). lia.
  - specialize (IH ((lo + hi) / 2 + 1)%nat hi). lia.
Qed.

Lemma bisect_left_le_length (l : t) (key : Z) :
  (bisect_left l key ≤ length l)%nat.
Proof. unfold bisect_left. pose proof (bisect_left_loop_bound (length l) l key 0 (length l)). lia. Qed.

Lemma bisect_right_le_length (l : t) (key : Z) :
  (bisect_right l key ≤ length l)%nat.
Proof. unfold bisect_right. pose proof (bisect_right_loop_bound (length l) l key 0 (length l)). lia. Qed.

(** The events on each side of the two cut points. *)
Lemma elem_of_take_bisect_left (l : t) (key : Z) (e : Event) :
  sorted l → e ∈ take (bisect_left l key) l → time e < key.
Proof.
  intros Hs [i Hi]%list_elem_of_lookup_1.
  apply lookup_take_Some in Hi as [Hi Hlt].
  by apply (bisect_left_spec l key i e).
Qed.

Lemma elem_of_drop_bisect_left (l : t) (key : Z) (e : Event) :
  sorted l → e ∈ drop (bisect_left l key) l → key ≤ time e.
Proof.
  intros Hs [i Hi]%list_elem_of_lookup_1.
  rewrite lookup_drop in Hi.
  destruct (Z.le_gt_cases key (time e)) as [|Hlt]; [done|].
  apply (bisect_left_spec l key _ e Hs Hi) in Hlt. lia.
Qed.

Lemma elem_of_take_bisect_right (l : t) (key : Z) (e : Event) :
  sorted l → e ∈ take (bisect_right l key) l → time e ≤ key.
Proof.
  intros Hs [i Hi]%list_elem_of_lookup_1.
  apply lookup_take_Some in Hi as [Hi Hlt].
  by apply (bisect_right_spec l key i e).
Qed.

Lemma elem_of_drop_bisect_right (l : t) (key : Z) (e : Event) :
  sorted l → e ∈ drop (bisect_right l key) l → key < time e.
Proof.
  intros Hs [i Hi]%list_elem_of_lookup_1.
  rewrite lookup_drop in Hi.
  destruct (Z.lt_ge_cases key (time e)) as [|Hle]; [done|].
  apply (bisect_right_spec l key _ e Hs Hi) in Hle. lia.
Qed.

(** The guard of [split]: the two cut points differ exactly when an
    event lies in the closed range between the bounds. *)
Lemma cuts_differ_iff (l : t) (b a : Z) :
  sorted l → b ≤ a →
  bisect_left l b ≠ bisect_right l a ↔ ∃ e, e ∈ l ∧ b ≤ time e ≤ a.
Proof.
  intros Hs Hba. split.
  - intros Hne.
    assert (bisect_left l b < bisect_right l a
            ∨ bisect_right l a < bisect_left l b)%nat as [Hlt|Hlt] by lia.
    + pose proof (bisect_right_le_length l a).
      destruct (lookup_lt_is_Some_2 l (bisect_left l b)) as [e He]; [lia|].
      exists e. split; [by eapply list_elem_of_lookup_2|].
      pose proof (bisect_left_spec l b _ e Hs He).
      pose proof (bisect_right_spec l a _ e Hs He).
      split; [|tauto].
      destruct (Z.le_gt_cases b (time e)); [done|]. lia.
    + pose proof (bisect_left_le_length l b).
      destruct (lookup_lt_is_Some_2 l (bisect_right l a)) as [e He]; [lia|].
      pose proof (bisect_left_spec l b _ e Hs He).
      pose proof (bisect_right_spec l a _ e Hs He).
      assert (time e < b) by tauto.
      assert (¬ time e ≤ a) by (intros ?; lia). lia.
  - intros (e & [i Hi]%list_elem_of_lookup_1 & Hb & Ha) Heq.
    pose proof (bisect_left_spec l b _ e Hs Hi).
    pose proof (bisect_right_spec l a _ e Hs Hi).
    assert (i < bisect_right l a)%nat by tauto.
    assert (¬ (i < bisect_left l b)%nat) by (intros ?; lia). lia.
Qed.

(** An event strictly inside the bounds makes the cut points differ,
    whatever the order of the bounds. *)
Lemma cuts_differ_inside (l : t) (b a : Z) (e : Event) :
  sorted l → e ∈ l → b ≤ time e ≤ a →
  bisect_left l b ≠ bisect_right l a.
Proof.
  intros Hs Hin Hr. apply cuts_differ_iff; [done|lia|]. eauto.
Qed.

(** The operations keep the list sorted. *)
Lemma add_sorted (l : t) (e : Event) : sorted l → sorted (add l e).
Proof.
  intros Hs. unfold add, sorted. cbv zeta.
  pose proof Hs as Hs'. unfold sorted in Hs'.
  rewrite <- (take_drop (bisect_right l (time e)) l) in Hs'.
  apply StronglySorted_app in Hs' as (Hcross & Hl & Hr).
  apply StronglySorted_app. split_and!; [|done|].
  - intros x y Hx [->|Hy]%elem_of_cons.
    + by apply elem_of_take_bisect_right in Hx.
    + by apply Hcross.
  - apply StronglySorted_cons. split; [|done].
    apply Forall_forall. intros y Hy.
    apply elem_of_drop_bisect_right in Hy; [lia|done].
Qed.

Lemma update_sorted (l : t) (es : list Event) :
  sorted l → sorted (update l es).
Proof.
  unfold update. revert l. induction es as [|e es IH]; intros l Hs; [done|].
  cbn [foldl]. by apply IH, add_sorted.
Qed.

Lemma slice_to_sorted (i : nat) (l : t) : sorted l → sorted (slice_to i l).
Proof.
  unfold sorted, slice_to. intros Hs.
  rewrite <- (take_drop i l) in Hs. by apply StronglySorted_app_1_l in Hs.
Qed.

Lemma slice_from_sorted (i : nat) (l : t) : sorted l → sorted (slice_from i l).
Proof.
  unfold sorted, slice_from. intros Hs.
  rewrite <- (take_drop i l) in Hs. by apply StronglySorted_app_1_r in Hs.
Qed.

End sortedlist_facts.

(** ** Running computations *)

Section Run.
Context {A B : Type}.
Implicit Types (w : world) (l : loc).

Lemma bind_run (m : M A) (k : A → M B) w :
  (m ≫= k) w =
  match m w with (inl e, w') => (inl e, w') | (inr x, w') => k x w' end.
Proof. reflexivity. Qed.

Lemma bind_ret (x : A) (k : A → M B) w : (mret x ≫= k) w = k x w.
Proof. reflexivity. Qed.

Lemma bind_raise (e : exn) (k : A → M B) w :
  (raise e ≫= k) w = (inl e, w).
Proof. reflexivity. Qed.

Lemma bind_getattr l (f : Application → A) (k : A → M B) w a :
  heap w !! l = Some a → (getattr l f ≫= k) w = k (f a) w.
Proof. intros H. unfold mbind, M_bind, getattr. by rewrite H. Qed.

Lemma bind_isinstance l (k : bool → M B) w a :
  heap w !! l = Some a → (isinstance_Application l ≫= k) w = k true w.
Proof.
  intros H. unfold mbind, M_bind, isinstance_Application.
  rewrite H. by rewrite bool_decide_eq_true_2.
Qed.

Lemma bind_update l (f : Application → Application) (k : unit → M B) w a :
  heap w !! l = Some a →
  (update l f ≫= k) w = k tt (with_heap (<[l := f a]> (heap w)) w).
Proof. intros H. unfold mbind, M_bind, update. by rewrite H. Qed.

Lemma bind_alloc (a : Application) (k : loc → M B) w :
  (alloc a ≫= k) w =
  k (fresh (dom (heap w)))
    (with_heap (<[fresh (dom (heap w)) := a]> (heap w)) w).
Proof. reflexivity. Qed.

End Run.

Lemma bind_bind {A B C : Type} (m : M A) (f : A → M B) (g : B → M C) w :
  ((m ≫= f) ≫= g) w = (m ≫= (λ x, f x ≫= g)) w.
Proof.
  unfold mbind, M_bind. destruct (m w) as [[e|x] w']; reflexivity.
Qed.

Lemma with_heap_heap h w : heap (with_heap h w) = h.
Proof. reflexivity. Qed.

Lemma with_heap_twice h h' w : with_heap h (with_heap h' w) = with_heap h w.
Proof. reflexivity. Qed.

Lemma with_heap_id w : with_heap (heap w) w = w.
Proof. by destruct w. Qed.

(** Looks up a location in a heap built by successive writes. *)
Ltac heap_lookup :=
  rewrite ?with_heap_heap;
  repeat first
    [ rewrite lookup_insert_eq
    | rewrite lookup_insert_ne by congruence ];
  first [ reflexivity | eassumption ].

(** Runs the next statement of a computation. *)
Ltac mstep :=
  first
    [ rewrite bind_ret
    | rewrite bind_raise
    | rewrite bind_bind
    | rewrite bind_alloc
    | erewrite bind_getattr; [|heap_lookup]
    | erewrite bind_isinstance; [|heap_lookup]
    | erewrite bind_update; [|heap_lookup] ].

Ltac mrun := repeat (mstep; cbn [negb]).

(** ** merge *)

(** Brings the final world of a run to a single write per location. *)
Ltac heap_norm :=
  rewrite ?with_heap_heap, ?with_heap_twice, ?insert_insert_eq.

(** Reads attributes of instances written by the setters. *)
Ltac fields :=
  cbn [init desktopid interpreterid path pid tstart tend cmdline events fds
       _uid set_desktopid set_interpreterid set_path set_tstart set_tend
       set_cmdline set_events set_fds set__uid _regenUid
       getTimeOfStart getTimeOfEnd setTimeOfStart setTimeOfEnd] in *.

Ltac case_truthy :=
  match goal with
  | |- context [negb (Py.truthy ?a) && Py.truthy ?b] =>
      destruct (negb (Py.truthy a) && Py.truthy b) eqn:?
  end.

(** Runs a computation to its end, splitting on the tests it meets. *)
Ltac mdrive :=
  repeat first
    [ progress mrun
    | progress fields
    | case_bool_decide; cbn [negb andb]
    | case_truthy ].

Lemma merge_run (self other : loc) (w : world) (s o : Application) :
  heap w !! self = Some s → heap w !! other = Some o →
  merge self other w =
  match merged s o with
  | inl e => (inl e, w)
  | inr s' => (inr self, with_heap (<[self := s']> (heap w)) w)
  end.
Proof.
  intros Hs Ho. unfold merge, merged.
  destruct (decide (self = other)) as [->|Hne];
    [assert (o = s) as -> by congruence|].
  all: mrun.
  all: destruct (Bool.eqb (init s) (init _)); cbn [negb]; [|done].
  all: mrun.
  all: destruct (pid s =? pid _); cbn [negb]; [|done].
  all: mdrive; try congruence; try done.
  all: unfold mret, M_ret; heap_norm; reflexivity.
Qed.

(** ** split *)

Lemma fresh_loc_ne (h : gmap loc Application) (l : loc) (a : Application) :
  h !! l = Some a → fresh (dom h) ≠ l.
Proof.
  intros Hl Heq. apply (is_fresh (dom h)). rewrite Heq.
  apply elem_of_dom. eauto.
Qed.

Lemma split_run (self : loc) (b a : Z) (w : world) (s : Application) :
  heap w !! self = Some s →
  split self b a w =
  let il := sortedlist.bisect_left (events s) b in
  let ir := sortedlist.bisect_right (events s) a in
  if negb (il =? ir)%nat then (inl IndexError_events_in_gap, w) else
  let l1 := fresh (dom (heap w)) in
  let h1 := <[l1 := split_left s il]> (heap w) in
  let l2 := fresh (dom h1) in
  (inr (l1, l2), with_heap (<[l2 := split_right s ir]> h1) w).
Proof.
  intros Hs. unfold split. mrun. cbv zeta.
  destruct (_ =? _)%nat; cbn [negb]; [|done].
  unfold deepcopy. mrun.
  pose proof (fresh_loc_ne _ _ _ Hs) as Hl1.
  set (l1 := fresh (dom (heap w))) in *.
  mrun. fields. heap_norm. unfold split_left, split_right, id. cbv zeta.
  assert (∀ x : Application,
            fresh (dom (<[l1 := x]> (heap w))) ≠ self
            ∧ fresh (dom (<[l1 := x]> (heap w))) ≠ l1) as Hl2.
  { intros x. split.
    - apply (fresh_loc_ne _ _ s). by rewrite lookup_insert_ne.
    - apply (fresh_loc_ne _ _ x). by rewrite lookup_insert_eq. }
  destruct (list.last _) as [e|]; mrun; fields; heap_norm.
  all: match goal with
       | |- context [fresh (dom (<[?l := ?x]> ?h))] =>
           destruct (Hl2 x) as [Hs2 H12];
           set (l2 := fresh (dom (<[l := x]> h))) in *
       end.
  all: mrun; fields; heap_norm.
  all: destruct (head _) as [e'|]; mrun; fields; heap_norm.
  all: reflexivity.
Qed.

(** [split] either raises and leaves the world as it was, or the two cut
    points are equal and it returns. *)
Lemma split_fails_iff (self : loc) (b a : Z) (w : world) (s : Application) :
  heap w !! self = Some s →
  split self b a w = (inl IndexError_events_in_gap, w)
  ∨ (sortedlist.bisect_left (events s) b = sortedlist.bisect_right (events s) a
     ∧ ∃ l r w', split self b a w = (inr (l, r), w')).
Proof.
  intros Hs. rewrite (split_run _ _ _ _ _ Hs). cbv zeta.
  destruct (Nat.eqb_spec (sortedlist.bisect_left (events s) b)
                         (sortedlist.bisect_right (events s) a)) as [Heq|Hne];
    cbn [negb]; [right|left]; eauto 10.
Qed.

(** C2. With an event strictly between the two bounds, [split] raises the
    [IndexError] of line 407 and the world, hence the event list of the
    instance, is as before the call; so [split] returns only when no event
    lies strictly between the bounds. *)
Theorem split_event_in_gap_fails
    (self : loc) (beforeEnd afterStart : Z) (w : world) (s : Application) :
  heap w !! self = Some s →
  sortedlist.sorted (events s) →
  beforeEnd ≤ afterStart →
  ((∃ e, e ∈ events s ∧ beforeEnd < time e < afterStart) →
     split self beforeEnd afterStart w = (inl IndexError_events_in_gap, w)
     ∧ (events <$> heap w !! self) = Some (events s))
  ∧ (∀ r w', split self beforeEnd afterStart w = (inr r, w') →
       ∀ e, e ∈ events s → ¬ (beforeEnd < time e < afterStart)).
Proof.
  intros Hs Hsorted Hba. split.
  - intros (e & Hin & Hlt). split; [|by rewrite Hs].
    destruct (split_fails_iff self beforeEnd afterStart w s Hs)
      as [Hfail|[Heq _]]; [done|].
    exfalso. revert Heq.
    apply (sortedlist_facts.cuts_differ_inside _ _ _ e); auto. lia.
  - intros r w' Hok e Hin Hlt.
    destruct (split_fails_iff self beforeEnd afterStart w s Hs)
      as [Hfail|[Heq _]]; [congruence|].
    revert Heq.
    apply (sortedlist_facts.cuts_differ_inside _ _ _ e); auto. lia.
Qed.

Lemma split_event_in_gap_fails_witness :
  split 0%nat 139 141 Examples.w_ristretto
  = (inl IndexError_events_in_gap, Examples.w_ristretto).
Proof.
  refine (proj1 (proj1 (split_event_in_gap_fails 0%nat 139 141
                   Examples.w_ristretto Examples.ristretto _ _ _) _)).
  - reflexivity.
  - repeat constructor.
  - lia.
  - exists (mkEvent 0 140 "file-create"). split.
    + vm_compute. left.
    + simpl. lia.
Defined.

Lemma events_split_left (s : Application) (il : nat) :
  events (split_left s il) = take il (events s).
Proof.
  unfold split_left, sortedlist.slice_to. cbv zeta.
  by destruct (list.last _).
Qed.

Lemma events_split_right (s : Application) (ir : nat) :
  events (split_right s ir) = drop ir (events s).
Proof.
  unfold split_right, sortedlist.slice_from. cbv zeta.
  by destruct (head _).
Qed.

(** C3, as the code has it. When no event lies in the closed range between
    the bounds, [split] returns two new instances: the left one holds the
    events before [beforeEnd], the right one the events after
    [afterStart], every event of the original is in one of them, and the
    left list followed by the right list is the original list. The
    original instance is unchanged. *)
Theorem split_partitions_events
    (self : loc) (beforeEnd afterStart : Z) (w : world) (s : Application) :
  heap w !! self = Some s →
  sortedlist.sorted (events s) →
  beforeEnd ≤ afterStart →
  (∀ e, e ∈ events s → ¬ (beforeEnd ≤ time e ≤ afterStart)) →
  ∃ l r w' sl sr,
    split self beforeEnd afterStart w = (inr (l, r), w')
    ∧ heap w' !! l = Some sl ∧ heap w' !! r = Some sr
    ∧ heap w' !! self = Some s
    ∧ l ≠ r ∧ l ≠ self ∧ r ≠ self
    ∧ (∀ e, e ∈ events s → time e < beforeEnd → e ∈ events sl)
    ∧ (∀ e, e ∈ events s → afterStart < time e → e ∈ events sr)
    ∧ (∀ e, e ∈ events sl → time e < beforeEnd)
    ∧ (∀ e, e ∈ events sr → afterStart < time e)
    ∧ events sl ++ events sr = events s.
Proof.
  intros Hs Hsorted Hba Hgap.
  assert (sortedlist.bisect_left (events s) beforeEnd
          = sortedlist.bisect_right (events s) afterStart) as Hcut.
  { destruct (decide (sortedlist.bisect_left (events s) beforeEnd
                      = sortedlist.bisect_right (events s) afterStart))
      as [|Hne]; [done|].
    apply sortedlist_facts.cuts_differ_iff in Hne as (e & Hin & Hr); auto.
    by destruct (Hgap e Hin). }
  rewrite (split_run _ _ _ _ _ Hs). cbv zeta.
  rewrite <- Hcut, Nat.eqb_refl. cbn [negb].
  set (il := sortedlist.bisect_left (events s) beforeEnd) in *.
  set (l1 := fresh (dom (heap w))).
  set (l2 := fresh (dom (<[l1 := split_left s il]> (heap w)))).
  assert (l1 ≠ self) as H1s by (eapply fresh_loc_ne; eauto).
  assert (l2 ≠ self) as H2s.
  { apply (fresh_loc_ne _ _ s). by rewrite lookup_insert_ne. }
  assert (l2 ≠ l1) as H21.
  { apply (fresh_loc_ne _ _ (split_left s il)). by rewrite lookup_insert_eq. }
  eexists l1, l2, _, (split_left s il), (split_right s il).
  split; [reflexivity|]. rewrite with_heap_heap.
  rewrite events_split_left, events_split_right.
  split_and!; try done.
  - rewrite lookup_insert_ne by done. by rewrite lookup_insert_eq.
  - by rewrite lookup_insert_eq.
  - by rewrite !lookup_insert_ne by done.
  - intros e Hin Hlt. rewrite <- (take_drop il (events s)) in Hin.
    apply elem_of_app in Hin as [Hin|Hin]; [done|].
    apply sortedlist_facts.elem_of_drop_bisect_left in Hin; [lia|done].
  - intros e Hin Hlt. rewrite <- (take_drop il (events s)) in Hin.
    apply elem_of_app in Hin as [Hin|Hin]; [|done].
    subst il. rewrite Hcut in Hin.
    apply sortedlist_facts.elem_of_take_bisect_right in Hin; [lia|done].
  - intros e Hin. by apply sortedlist_facts.elem_of_take_bisect_left in Hin.
  - intros e Hin. subst il. rewrite Hcut in Hin.
    by apply sortedlist_facts.elem_of_drop_bisect_right in Hin.
  - apply take_drop.
Qed.

Lemma split_partitions_events_witness :
  ∃ l r w' sl sr,
    split 0%nat 139 139 Examples.w_ristretto = (inr (l, r), w')
    ∧ heap w' !! l = Some sl ∧ heap w' !! r = Some sr
    ∧ events sl ++ events sr = events Examples.ristretto.
Proof.
  destruct (split_partitions_events 0%nat 139 139 Examples.w_ristretto
              Examples.ristretto) as (l & r & w' & sl & sr & H).
  - reflexivity.
  - repeat constructor.
  - lia.
  - intros e He. vm_compute in He. apply list_elem_of_singleton in He.
    subst e. simpl. lia.
  - exists l, r, w', sl, sr. tauto.
Defined.

(** C3, as stated, does not hold: an event whose time is one of the
    bounds is not strictly between them, and [split] raises all the same. *)
Lemma split_event_on_bound_fails :
  140 ≤ 141
  ∧ heap Examples.w_ristretto !! 0%nat = Some Examples.ristretto
  ∧ (∀ e, e ∈ events Examples.ristretto → ¬ (140 < time e < 141))
  ∧ split 0%nat 140 141 Examples.w_ristretto
    = (inl IndexError_events_in_gap, Examples.w_ristretto)
  ∧ ¬ ∃ l r w', split 0%nat 140 141 Examples.w_ristretto = (inr (l, r), w').
Proof.
  assert (split 0%nat 140 141 Examples.w_ristretto
          = (inl IndexError_events_in_gap, Examples.w_ristretto)) as Hrun.
  { by rewrite (split_run _ _ _ _ Examples.ristretto). }
  split_and!; [lia|done| |done|].
  - intros e He. vm_compute in He. apply list_elem_of_singleton in He.
    subst e. simpl. lia.
  - intros (l & r & w' & H). congruence.
Qed.

(** C8, as the code has it. The event at time 140 lies between 139 and
    141, so [split(139, 141)] raises and leaves the world as it was. With
    both bounds before the event, [split(139, 139)] returns a left instance
    with no event and its time of end still 300, and a right instance with
    the event and its time of start set to 140. *)
Theorem split_ristretto :
  split 0%nat 139 141 Examples.w_ristretto
  = (inl IndexError_events_in_gap, Examples.w_ristretto)
  ∧ ∃ l r w' sl sr,
      split 0%nat 139 139 Examples.w_ristretto = (inr (l, r), w')
      ∧ heap w' !! l = Some sl ∧ heap w' !! r = Some sr
      ∧ events sl = [] ∧ tend sl = 300 ∧ tstart sl = 0
      ∧ events sr = [mkEvent 0 140 "file-create"]
      ∧ tstart sr = 140 ∧ tend sr = 300.
Proof.
  split.
  - by rewrite (split_run _ _ _ _ Examples.ristretto).
  - rewrite (split_run _ _ _ _ Examples.ristretto) by done.
    vm_compute. eexists _, _, _, _, _. split; [reflexivity|].
    split_and!; reflexivity.
Qed.

(** C8, as stated, does not hold: the call does not return. *)
Lemma ristretto_split_139_141_raises :
  heap Examples.w_ristretto !! 0%nat = Some Examples.ristretto
  ∧ desktopid Examples.ristretto = Some "ristretto"
  ∧ pid Examples.ristretto = 21
  ∧ tstart Examples.ristretto = 0 ∧ tend Examples.ristretto = 300
  ∧ time <$> events Examples.ristretto = [140]
  ∧ ¬ ∃ l r w', split 0%nat 139 141 Examples.w_ristretto = (inr (l, r), w').
Proof.
  split_and!; try reflexivity.
  intros (l & r & w' & H).
  rewrite (split_run _ _ _ _ Examples.ristretto) in H by done.
  discriminate H.
Qed.

(** ** merge: the claims *)

Lemma merged_mergeable (s o : Application) :
  mergeable s o → ∃ s', merged s o = inr s'.
Proof.
  intros (Hi & Hp & Hd). unfold merged.
  rewrite Hi, Hp, eqb_reflx, Z.eqb_refl. cbn [negb]. cbv zeta.
  repeat case_bool_decide; cbn [negb andb]; eauto.
  exfalso. tauto.
Qed.

Lemma merged_inr_fields (s o s' : Application) :
  merged s o = inr s' →
  tstart s' = Z.min (tstart o) (tstart s)
  ∧ tend s' = Z.max (tend o) (tend s)
  ∧ pid s' = pid s ∧ init s' = init s ∧ fds s' = fds s
  ∧ _uid s' = uid_of (desktopid s') (pid s') (tstart s').
Proof.
  unfold merged. intros H. cbv zeta in H.
  repeat match type of H with
         | (if ?c then _ else _) = _ => destruct c; [discriminate H|]
         end.
  injection H as <-. by split_and!.
Qed.

(** C1, as the code has it. After a merge of two mergeable instances, the
    time of start is the minimum of the two and the time of end is the
    maximum of the two, whatever their values: a time of end 0 on one side
    gives way to a later time of end on the other side. *)
Theorem merge_time_window (self other : loc) (w : world) (s o : Application) :
  heap w !! self = Some s → heap w !! other = Some o →
  mergeable s o →
  ∃ w' s',
    merge self other w = (inr self, w')
    ∧ heap w' !! self = Some s'
    ∧ tstart s' = Z.min (tstart s) (tstart o)
    ∧ tend s' = Z.max (tend s) (tend o)
    ∧ (tend s = 0 → 0 ≤ tend o → tend s' = tend o)
    ∧ (tend o = 0 → 0 ≤ tend s → tend s' = tend s).
Proof.
  intros Hs Ho Hm.
  destruct (merged_mergeable s o Hm) as [s' Hs'].
  rewrite (merge_run _ _ _ _ _ Hs Ho), Hs'.
  apply merged_inr_fields in Hs' as (Hts & Hte & _).
  eexists _, s'. split; [reflexivity|].
  rewrite with_heap_heap, lookup_insert_eq.
  split_and!; [done|lia..].
Qed.

Lemma merge_time_window_witness :
  ∃ w' s',
    merge 0%nat 1%nat Examples.w_running_ended = (inr 0%nat, w')
    ∧ heap w' !! 0%nat = Some s'
    ∧ tstart s' = 10 ∧ tend s' = 300.
Proof.
  destruct (merge_time_window 0%nat 1%nat Examples.w_running_ended
              Examples.running Examples.ended) as (w' & s' & H).
  - reflexivity.
  - reflexivity.
  - unfold mergeable. split_and!; [reflexivity..|left; reflexivity].
  - exists w', s'. destruct H as (? & ? & -> & -> & _). by split_and!.
Defined.

(** C1, as stated, does not hold: the instance that is still running
    (time of end 0) merged with one that ended at 300 ends at 300. *)
Lemma merge_unbounded_end_overwritten :
  heap Examples.w_running_ended !! 0%nat = Some Examples.running
  ∧ heap Examples.w_running_ended !! 1%nat = Some Examples.ended
  ∧ mergeable Examples.running Examples.ended
  ∧ tend Examples.running = 0
  ∧ ∃ w' s',
      merge 0%nat 1%nat Examples.w_running_ended = (inr 0%nat, w')
      ∧ heap w' !! 0%nat = Some s'
      ∧ tend s' = 300 ∧ tend s' ≠ 0.
Proof.
  split_and!; try reflexivity.
  { unfold mergeable. split_and!; [reflexivity..|left; reflexivity]. }
  rewrite (merge_run _ _ _ Examples.running Examples.ended) by done.
  eexists _, _. split; [reflexivity|].
  rewrite with_heap_heap, lookup_insert_eq. split; [reflexivity|].
  split; [reflexivity|discriminate].
Qed.

(** C4, as the code has it. With equal pid and initialisation status:
    when the interpreter of [self] is the identifier of [other], the merge
    succeeds and [self] keeps its own identifier and interpreter; it is in
    the other direction, when the identifier of [self] is the interpreter
    of [other] (and the first case does not apply), that [self] takes
    the identifier and the interpreter of [other]. *)
Theorem merge_interpreter_indirection
    (self other : loc) (w : world) (s o : Application) :
  heap w !! self = Some s → heap w !! other = Some o →
  init s = init o → pid s = pid o →
  (interpreterid s = desktopid o →
     ∃ w' s',
       merge self other w = (inr self, w')
       ∧ heap w' !! self = Some s'
       ∧ desktopid s' = desktopid s
       ∧ interpreterid s' = interpreterid s)
  ∧ (desktopid s ≠ desktopid o → interpreterid s ≠ desktopid o →
     desktopid s = interpreterid o →
     ∃ w' s',
       merge self other w = (inr self, w')
       ∧ heap w' !! self = Some s'
       ∧ desktopid s' = desktopid o
       ∧ interpreterid s' = interpreterid o).
Proof.
  intros Hs Ho Hi Hp.
  rewrite (merge_run _ _ _ _ _ Hs Ho). unfold merged.
  rewrite Hi, Hp, eqb_reflx, Z.eqb_refl. cbn [negb]. cbv zeta.
  split.
  - intros Hint. rewrite (bool_decide_eq_true_2 _ Hint).
    cbn [negb]. rewrite !andb_false_r. cbn [andb].
    eexists _, _. split; [reflexivity|].
    rewrite with_heap_heap, lookup_insert_eq. by split_and!.
  - intros Hd Hint Hrev.
    rewrite (bool_decide_eq_true_2 _ Hd), (bool_decide_eq_false_2 _ Hint),
      (bool_decide_eq_true_2 _ Hrev). cbn [negb andb].
    eexists _, _. split; [reflexivity|].
    rewrite with_heap_heap, lookup_insert_eq. by split_and!.
Qed.

Lemma merge_interpreter_indirection_witness :
  (∃ w' s',
     merge 0%nat 1%nat Examples.w_script_interpreter = (inr 0%nat, w')
     ∧ heap w' !! 0%nat = Some s'
     ∧ desktopid s' = Some "myscript"
     ∧ interpreterid s' = Some "python")
  ∧ (∃ w' s',
       merge 0%nat 1%nat Examples.w_interpreter_script = (inr 0%nat, w')
       ∧ heap w' !! 0%nat = Some s'
       ∧ desktopid s' = Some "myscript"
       ∧ interpreterid s' = Some "python").
Proof.
  split.
  - refine (proj1 (merge_interpreter_indirection 0%nat 1%nat
                     Examples.w_script_interpreter
                     Examples.script Examples.interpreter _ _ _ _) _);
      reflexivity.
  - refine (proj2 (merge_interpreter_indirection 0%nat 1%nat
                     Examples.w_interpreter_script
                     Examples.interpreter Examples.script _ _ _ _) _ _ _);
      try reflexivity; discriminate.
Defined.

(** C4, as stated, does not hold: a script whose interpreter is the
    identifier of the other instance keeps its own identifier. *)
Lemma merge_keeps_script_identifier :
  heap Examples.w_script_interpreter !! 0%nat = Some Examples.script
  ∧ heap Examples.w_script_interpreter !! 1%nat = Some Examples.interpreter
  ∧ pid Examples.script = pid Examples.interpreter
  ∧ init Examples.script = init Examples.interpreter
  ∧ interpreterid Examples.script = desktopid Examples.interpreter
  ∧ ∃ w' s',
      merge 0%nat 1%nat Examples.w_script_interpreter = (inr 0%nat, w')
      ∧ heap w' !! 0%nat = Some s'
      ∧ desktopid s' ≠ desktopid Examples.interpreter.
Proof.
  split_and!; try reflexivity.
  rewrite (merge_run _ _ _ Examples.script Examples.interpreter) by done.
  eexists _, _. split; [reflexivity|].
  rewrite with_heap_heap, lookup_insert_eq. split; [reflexivity|].
  discriminate.
Qed.

Lemma set_of_seen (seen : list nat) (xs : list Event) :
  (∀ e, e ∈ xs → eid e ∈ seen) → set_of seen xs = [].
Proof.
  revert seen. induction xs as [|e xs IH]; intros seen Hall; [done|].
  cbn [set_of]. rewrite bool_decide_eq_true_2.
  - apply IH. intros x Hx. apply Hall. by right.
  - apply Hall. by left.
Qed.

Lemma set_minus_self (xs : list Event) : set_minus xs xs = [].
Proof.
  apply set_of_seen. intros e He. by apply list_elem_of_fmap_2.
Qed.

Lemma merge_dangling (self other : loc) (w : world) :
  heap w !! self = None →
  ∃ e, merge self other w = (inl e, w).
Proof.
  intros Hs. unfold merge.
  rewrite bind_run. unfold isinstance_Application.
  destruct (bool_decide _); cbn [negb]; [|by eexists].
  rewrite bind_run. unfold getattr at 1. rewrite Hs. by eexists.
Qed.

Lemma merged_self (s s' : Application) :
  merged s s = inr s' →
  desktopid s' = desktopid s ∧ interpreterid s' = interpreterid s
  ∧ pid s' = pid s ∧ tstart s' = tstart s ∧ tend s' = tend s
  ∧ path s' = path s ∧ cmdline s' = cmdline s
  ∧ events s' = events s ∧ fds s' = fds s.
Proof.
  unfold merged. rewrite eqb_reflx, Z.eqb_refl. cbn [negb]. cbv zeta.
  rewrite (bool_decide_eq_false_2 (desktopid s ≠ desktopid s)) by tauto.
  cbn [andb]. intros [= <-]. fields.
  rewrite Z.min_id, Z.max_id, set_minus_self.
  split_and!; try done.
  - by destruct (_ && _).
  - by destruct (_ && _).
Qed.

(** C10. [merge] returns [self] or raises, and writes to [self] only:
    every other instance, the descriptor cache and the probe log are as
    before the call, and after a failure the whole world is. The
    attributes of [other] listed in the claim are as before the call
    even when [other] is [self]. *)
Theorem merge_frame (self other : loc) (w w' : world) (o : Application)
    (r : exn + loc) :
  heap w !! other = Some o →
  merge self other w = (r, w') →
  (r = inr self ∨ ∃ e, r = inl e ∧ w' = w)
  ∧ desktopCache w' = desktopCache w ∧ probed w' = probed w
  ∧ (∀ l, l ≠ self → heap w' !! l = heap w !! l)
  ∧ (self ≠ other → heap w' !! other = Some o)
  ∧ ∃ o',
      heap w' !! other = Some o'
      ∧ desktopid o' = desktopid o ∧ interpreterid o' = interpreterid o
      ∧ pid o' = pid o ∧ tstart o' = tstart o ∧ tend o' = tend o
      ∧ path o' = path o ∧ cmdline o' = cmdline o
      ∧ events o' = events o ∧ fds o' = fds o.
Proof.
  intros Ho Hrun.
  assert (w' = w → r ≠ inr self →
          (r = inr self ∨ ∃ e, r = inl e ∧ w' = w) →
          (r = inr self ∨ ∃ e, r = inl e ∧ w' = w)
          ∧ desktopCache w' = desktopCache w ∧ probed w' = probed w
          ∧ (∀ l, l ≠ self → heap w' !! l = heap w !! l)
          ∧ (self ≠ other → heap w' !! other = Some o)
          ∧ ∃ o',
              heap w' !! other = Some o'
              ∧ desktopid o' = desktopid o ∧ interpreterid o' = interpreterid o
              ∧ pid o' = pid o ∧ tstart o' = tstart o ∧ tend o' = tend o
              ∧ path o' = path o ∧ cmdline o' = cmdline o
              ∧ events o' = events o ∧ fds o' = fds o) as Hsame.
  { intros -> _ Hr. split_and!; try done. exists o. by split_and!. }
  destruct (heap w !! self) as [s|] eqn:Hs.
  - rewrite (merge_run _ _ _ _ _ Hs Ho) in Hrun.
    destruct (merged s o) as [e|s'] eqn:Hm.
    + injection Hrun as <- <-. apply Hsame; eauto.
    + injection Hrun as <- <-. split; [by left|].
      split; [done|]. split; [done|]. rewrite with_heap_heap.
      split; [by intros l Hl; rewrite lookup_insert_ne|].
      split; [by intros Hne; rewrite lookup_insert_ne|].
      destruct (decide (self = other)) as [->|Hne].
      * assert (s = o) as -> by congruence.
        exists s'. rewrite lookup_insert_eq.
        split; [done|]. by apply merged_self.
      * exists o. rewrite lookup_insert_ne by done. by split_and!.
  - destruct (merge_dangling self other w Hs) as [e He].
    rewrite He in Hrun. injection Hrun as <- <-. apply Hsame; eauto.
Qed.

Lemma merge_frame_witness :
  ∃ o',
    heap (merge 0%nat 1%nat Examples.w_running_ended).2 !! 1%nat = Some o'
    ∧ desktopid o' = desktopid Examples.ended
    ∧ interpreterid o' = interpreterid Examples.ended
    ∧ pid o' = pid Examples.ended ∧ tstart o' = tstart Examples.ended
    ∧ tend o' = tend Examples.ended
    ∧ path o' = path Examples.ended ∧ cmdline o' = cmdline Examples.ended
    ∧ events o' = events Examples.ended ∧ fds o' = fds Examples.ended.
Proof.
  refine (proj2 (proj2 (proj2 (proj2 (proj2
    (merge_frame 0%nat 1%nat Examples.w_running_ended
       (merge 0%nat 1%nat Examples.w_running_ended).2 Examples.ended
       (merge 0%nat 1%nat Examples.w_running_ended).1 _ _)))))).
  - reflexivity.
  - by destruct (merge 0%nat 1%nat Examples.w_running_ended).
Defined.

(** ** The file descriptor table *)

Lemma resolveFD_scan_Some (l : list fdentry) (t : Z) (p : string) :
  resolveFD_scan l t = Some p →
  ∃ i ts te,
    l !! i = Some (p, ts, te) ∧ in_range (p, ts, te) t
    ∧ ∀ j e, (j < i)%nat → l !! j = Some e → ¬ in_range e t.
Proof.
  induction l as [|[[q ts] te] l IH]; [done|]. cbn [resolveFD_scan].
  destruct ((ts <=? t) && ((te =? 0) || (t <=? te))) eqn:Hc.
  - intros [= ->]. exists 0%nat, ts, te. split; [done|]. split.
    + unfold in_range. cbn. lia.
    + intros j e Hj. lia.
  - intros (i & ts' & te' & Hi & Hr & Hbefore)%IH.
    exists (S i), ts', te'. split; [done|]. split; [done|].
    intros [|j] e Hj He.
    + injection He as <-. unfold in_range. cbn. lia.
    + apply (Hbefore j); [lia|done].
Qed.

Lemma resolveFD_scan_None (l : list fdentry) (t : Z) :
  resolveFD_scan l t = None ↔ ∀ e, e ∈ l → ¬ in_range e t.
Proof.
  induction l as [|[[q ts] te] l IH]; cbn [resolveFD_scan].
  - split; [|done]. intros _ e He. by apply not_elem_of_nil in He.
  - destruct ((ts <=? t) && ((te =? 0) || (t <=? te))) eqn:Hc.
    + split; [done|]. intros Hall. exfalso.
      apply (Hall (q, ts, te)); [by left|]. unfold in_range. cbn. lia.
    + rewrite IH. split.
      * intros Hall e [->|He]%elem_of_cons; [|by apply Hall].
        unfold in_range. cbn. lia.
      * intros Hall e He. apply Hall. by right.
Qed.

Lemma resolveFD_scan_eq (fd t : Z) (a : Application) :
  resolveFD fd t a = resolveFD_scan (default [] (fds a !! fd)) t.
Proof. unfold resolveFD. by destruct (fds a !! fd) as [[|e l]|]. Qed.

(** ** The intervals that the calls leave in the table *)

Section IntervalFacts.

Context (resolveFDRef : string → Z → Py.ostr).

Local Abbreviation runcalls := (do_fdcalls resolveFDRef).
Local Abbreviation ivals := (intervals_of resolveFDRef).
Local Abbreviation opens := (opened_of resolveFDRef).

Lemma intervals_of_snoc (fd : Z) (cs : list fdcall) (c : fdcall) :
  ivals fd (cs ++ [c]) = step_intervals resolveFDRef fd (ivals fd cs) c.
Proof. unfold intervals_of. by rewrite foldl_app. Qed.

Lemma runcalls_snoc (cs : list fdcall) (c : fdcall) (a : Application) :
  runcalls (cs ++ [c]) a = do_fdcall resolveFDRef (runcalls cs a) c.
Proof. unfold do_fdcalls. by rewrite foldl_app. Qed.

Lemma closeFD_lookup (fd fd' t : Z) (a : Application) :
  fds (closeFD fd t a) !! fd'
  = if decide (fd = fd')
    then close_last t <$> fds a !! fd'
    else fds a !! fd'.
Proof.
  case_decide as Hfd; [subst fd'|].
  - unfold closeFD, close_last.
    destruct (fds a !! fd) as [l|] eqn:Hl;
      unfold fdentry in *; rewrite ?Hl; [|done]. cbn [fmap option_fmap option_map].
    destruct (list.last l) as [[[p t0] t1]|]; [|by rewrite Hl].
    destruct (t1 =? 0); [|by rewrite Hl].
    cbn [fds set_fds]. by rewrite lookup_insert_eq.
  - unfold closeFD.
    destruct (fds a !! fd) as [l|]; [|done].
    destruct (list.last l) as [[[p t0] t1]|]; [|done].
    destruct (t1 =? 0); [|done].
    cbn [fds set_fds]. by rewrite lookup_insert_ne.
Qed.

Lemma close_last_nil_inv (t : Z) (l : list fdentry) :
  close_last t l = [] → l = [].
Proof.
  unfold close_last. destruct (list.last l) as [[[p t0] t1]|] eqn:Hl; [|done].
  destruct (t1 =? 0); [|done]. intros Heq.
  apply (f_equal length) in Heq. rewrite length_insert in Heq.
  by destruct l.
Qed.

(** The list of a handle in the table is the list of its intervals, and
    the handle is in the table once it has an interval. *)
Lemma table_intervals (cs : list fdcall) (a0 : Application) (fd : Z) :
  fds (runcalls cs (clearFDs a0)) !! fd
  = if decide (ivals fd cs = []) then None else Some (ivals fd cs).
Proof.
  induction cs as [|c cs IH] using rev_ind.
  - cbn. by rewrite lookup_empty.
  - rewrite runcalls_snoc, intervals_of_snoc.
    destruct c as [fd' p t|fd' t]; cbn [do_fdcall step_intervals].
    + unfold openFD. cbn [fds set_fds].
      destruct (Z.eqb_spec fd' fd) as [->|Hne].
      * rewrite lookup_insert_eq. unfold fdentry in *. rewrite IH.
        rewrite (decide_False (P := _ ++ _ = []))
          by (by intros [_ [=]]%app_eq_nil).
        f_equal. f_equal. by case_decide as Hn; [rewrite Hn|].
      * by rewrite lookup_insert_ne.
    + rewrite closeFD_lookup.
      destruct (Z.eqb_spec fd' fd) as [->|Hne].
      * rewrite decide_True by done. unfold fdentry in *. rewrite IH.
        case_decide as Hn.
        -- rewrite Hn. by rewrite decide_True.
        -- cbn. rewrite decide_False; [done|].
           intros Heq. by apply close_last_nil_inv in Heq.
      * by rewrite decide_False.
Qed.

Lemma close_last_keys (t : Z) (l : list fdentry) :
  (λ e : fdentry, (e.1.1, e.1.2)) <$> close_last t l
  = (λ e : fdentry, (e.1.1, e.1.2)) <$> l.
Proof.
  unfold close_last. destruct (list.last l) as [[[p t0] t1]|] eqn:Hl; [|done].
  destruct (t1 =? 0); [|done].
  rewrite list_fmap_insert. apply list_insert_id.
  rewrite list_lookup_fmap, <- last_lookup. unfold fdentry in *.
  by rewrite Hl.
Qed.

(** Each interval carries the locator and the time of one [open], in the
    order of the calls. *)
Lemma intervals_opened (cs : list fdcall) (fd : Z) :
  (λ e : fdentry, (e.1.1, e.1.2)) <$> ivals fd cs = opens fd cs.
Proof.
  induction cs as [|c cs IH] using rev_ind; [done|].
  rewrite intervals_of_snoc. unfold opened_of in *. rewrite omap_app, <- IH.
  destruct c as [fd' p t|fd' t]; cbn.
  - destruct (fd' =? fd); cbn; [by rewrite fmap_app|by rewrite app_nil_r].
  - rewrite app_nil_r. destruct (fd' =? fd); [|done]. apply close_last_keys.
Qed.

Lemma close_last_elem (t : Z) (l : list fdentry) (e : fdentry) :
  e ∈ close_last t l → e ∈ l ∨ e.2 = t.
Proof.
  unfold close_last. destruct (list.last l) as [[[p t0] t1]|] eqn:Hl; [|auto].
  destruct (t1 =? 0); [|auto].
  intros [i Hi]%list_elem_of_lookup_1.
  destruct (decide (i = pred (length l))) as [->|Hne].
  - rewrite list_lookup_insert_eq in Hi.
    + injection Hi as <-. by right.
    + apply lookup_lt_Some in Hi. by rewrite length_insert in Hi.
  - rewrite list_lookup_insert_ne in Hi by done.
    left. by eapply list_elem_of_lookup_2.
Qed.

(** The close time of an interval is 0 or the time of a [close] on the
    handle. *)
Lemma intervals_closed (cs : list fdcall) (fd : Z) (e : fdentry) :
  e ∈ ivals fd cs → e.2 = 0 ∨ Close fd e.2 ∈ cs.
Proof.
  revert e. induction cs as [|c cs IH] using rev_ind; intros e.
  - by intros ?%not_elem_of_nil.
  - rewrite intervals_of_snoc.
    assert (e ∈ ivals fd cs → e.2 = 0 ∨ Close fd e.2 ∈ cs ++ [c]) as IH'.
    { intros [?|?]%IH; [by left|right]. apply elem_of_app. by left. }
    destruct c as [fd' p t|fd' t]; cbn [step_intervals].
    + destruct (fd' =? fd); [|done].
      intros [?|He%list_elem_of_singleton]%elem_of_app; [auto|].
      subst e. by left.
    + destruct (Z.eqb_spec fd' fd) as [->|Hne]; [|done].
      intros [?|<-]%close_last_elem; [auto|].
      right. apply elem_of_app. right. by left.
Qed.

End IntervalFacts.

(** C9. After any sequence of [openFD] and [closeFD] calls on an empty
    table, the list of a descriptor in the table is the list of its
    intervals: one for each [openFD] on it, in the order of the calls,
    with the stored path and the time of that call, and with a close time
    that is 0 or the time of a [closeFD] on it. [resolveFD] returns the
    path of the first of these intervals whose range holds the time asked
    for (an interval not closed holds every time from its opening on), and
    [None] when none of them does, in particular for a descriptor that
    was never opened. *)
Theorem resolveFD_correct (resolveFDRef : string → Z → Py.ostr)
    (calls : list fdcall) (a0 : Application) (fd t : Z) :
  let a := do_fdcalls resolveFDRef calls (clearFDs a0) in
  let l := intervals_of resolveFDRef fd calls in
  default [] (fds a !! fd) = l
  ∧ (fds a !! fd = None ↔ opened_of resolveFDRef fd calls = [])
  ∧ (λ e : fdentry, (e.1.1, e.1.2)) <$> l = opened_of resolveFDRef fd calls
  ∧ (∀ e, e ∈ l → e.2 = 0 ∨ Close fd e.2 ∈ calls)
  ∧ (∀ p, resolveFD fd t a = Some p ↔
        ∃ i ts te,
          l !! i = Some (p, ts, te) ∧ in_range (p, ts, te) t
          ∧ ∀ j e, (j < i)%nat → l !! j = Some e → ¬ in_range e t)
  ∧ (resolveFD fd t a = None ↔ ∀ e, e ∈ l → ¬ in_range e t)
  ∧ (opened_of resolveFDRef fd calls = [] → resolveFD fd t a = None).
Proof.
  intros a l.
  pose proof (table_intervals resolveFDRef calls a0 fd) as Htab.
  pose proof (intervals_opened resolveFDRef calls fd) as Hop.
  fold a l in Htab. fold l in Hop.
  assert (default [] (fds a !! fd) = l) as Hl.
  { unfold fdentry in *. rewrite Htab. by case_decide as Hn; [rewrite Hn|]. }
  assert (fds a !! fd = None ↔ opened_of resolveFDRef fd calls = []) as Hnone.
  { unfold fdentry in *. rewrite Htab, <- Hop.
    case_decide as Hn; [by rewrite Hn|].
    split; [done|]. intros Heq. by apply fmap_nil_inv in Heq. }
  split; [done|]. split; [done|]. split; [done|].
  split; [apply intervals_closed|].
  rewrite resolveFD_scan_eq. unfold fdentry in *. rewrite Hl. split_and!.
  - intros p. split; [apply resolveFD_scan_Some|].
    intros (i & ts & te & Hi & Hr & Hbefore).
    destruct (resolveFD_scan l t) as [q|] eqn:Hq.
    + apply resolveFD_scan_Some in Hq as (i' & ts' & te' & Hi' & Hr' & Hb').
      destruct (Nat.lt_trichotomy i i') as [Hlt|[->|Hlt]].
      * by destruct (Hb' i (p, ts, te) Hlt Hi).
      * pose proof (eq_trans (eq_sym Hi) Hi') as Heq. by injection Heq as ->.
      * by destruct (Hbefore i' (q, ts', te') Hlt Hi').
    + exfalso. rewrite resolveFD_scan_None in Hq.
      apply (Hq (p, ts, te)); [|done]. by eapply list_elem_of_lookup_2.
  - apply resolveFD_scan_None.
  - intros Hempty. rewrite <- Hop in Hempty.
    apply fmap_nil_inv in Hempty. by rewrite Hempty.
Qed.

(** The example of the specification on the intervals: after the open
    and the close, descriptor 3 has the one interval from 10 to 20. *)
Example intervals_tmp_x (resolveFDRef : string → Z → Py.ostr) :
  intervals_of resolveFDRef 3 [Open 3 "/tmp/x" 10; Close 3 20]
  = [("/tmp/x", 10, 20)]
  ∧ intervals_of resolveFDRef 3
      [Open 3 "/tmp/x" 10; Close 3 20; Close 3 25; Open 4 "/tmp/y" 30;
       Open 3 "/tmp/z" 40]
    = [("/tmp/x", 10, 20); ("/tmp/z", 40, 0)].
Proof. by split. Qed.

(** The example of the specification: open, resolve, close, resolve. *)
Example resolveFD_tmp_x (resolveFDRef : string → Z → Py.ostr) (a0 : Application) :
  let a1 := openFD resolveFDRef 3 "/tmp/x" 10 (clearFDs a0) in
  let a2 := closeFD 3 20 a1 in
  resolveFD 3 15 a1 = Some "/tmp/x" ∧ resolveFD 3 25 a2 = None
  ∧ resolveFD 3 15 a2 = Some "/tmp/x" ∧ resolveFD 4 15 a2 = None.
Proof. by split_and!. Qed.

(** [closeFD] on a descriptor whose last entry is closed changes nothing. *)
Lemma closeFD_closed (fd t : Z) (a : Application) (l : list fdentry)
    (p : string) (t0 t1 : Z) :
  fds a !! fd = Some l → list.last l = Some (p, t0, t1) → t1 ≠ 0 →
  closeFD fd t a = a.
Proof.
  intros Hl Hlast Hne. unfold closeFD, fdentry in *. rewrite Hl, Hlast.
  by destruct (Z.eqb_spec t1 0).
Qed.

(** ** The unique key *)

Lemma regenUid_consistent (a : Application) : uid_consistent (_regenUid a).
Proof. reflexivity. Qed.

(** After a merge that succeeds, the key of [self] is made of its new
    identifier, pid and time of start. *)
Lemma merge_uid_consistent (self other : loc) (w w' : world) (s o : Application) :
  heap w !! self = Some s → heap w !! other = Some o →
  merge self other w = (inr self, w') →
  ∃ s', heap w' !! self = Some s' ∧ uid_consistent s'.
Proof.
  intros Hs Ho. rewrite (merge_run _ _ _ _ _ Hs Ho).
  destruct (merged s o) as [e|s'] eqn:Hm; [done|].
  intros [= <-]. exists s'. rewrite with_heap_heap, lookup_insert_eq.
  split; [done|]. by apply merged_inr_fields in Hm as (_ & _ & _ & _ & _ & ?).
Qed.

(** C7 fails on [setTimeOfStart] and on the right half of [split]: both
    assign [tstart] and leave [_uid] as it was, so [uid()] still shows the
    old time of start, and the two halves of a split share one key. *)
Lemma uid_stale_after_tstart_change :
  uid_consistent Examples.ristretto
  ∧ uid (setTimeOfStart 5 Examples.ristretto) = "ristretto:21:0"
  ∧ uid_of (desktopid (setTimeOfStart 5 Examples.ristretto))
           (pid (setTimeOfStart 5 Examples.ristretto))
           (tstart (setTimeOfStart 5 Examples.ristretto)) = "ristretto:21:5"
  ∧ ¬ uid_consistent (setTimeOfStart 5 Examples.ristretto)
  ∧ ∃ l r w' sl sr,
      split 0%nat 139 139 Examples.w_ristretto = (inr (l, r), w')
      ∧ heap w' !! l = Some sl ∧ heap w' !! r = Some sr
      ∧ tstart sr = 140 ∧ uid sr = "ristretto:21:0" ∧ uid sl = uid sr
      ∧ ¬ uid_consistent sr.
Proof.
  split_and!; try reflexivity.
  - unfold uid_consistent. vm_compute. discriminate.
  - rewrite (split_run _ _ _ _ Examples.ristretto) by done.
    vm_compute. eexists _, _, _, _, _. split; [reflexivity|].
    split_and!; try reflexivity. discriminate.
Qed.

(** What the constructor returns for the identifier of the examples, and
    the instance of the examples after its first event. *)
Example new_ristretto :
  ∃ w,
    Examples.new_Application (Some "Ristretto.desktop") None 21 0 300 None world0
      = (inr 0%nat, w)
    ∧ (addEvent (mkEvent 0 140 "file-create") <$> heap w !! 0%nat)
      = Some Examples.ristretto
    ∧ desktopCache w !! Some "ristretto"
      = Some (Some "ristretto", default ∅ (Examples.parse
                 "/usr/share/applications/ristretto.desktop")).
Proof. eexists. split; [by vm_compute|]. split; by vm_compute. Qed.

(** The sorted order of the events is kept by [addEvent], by [merge] and
    in the two halves of [split]. *)
Lemma addEvent_sorted (e : Event) (a : Application) :
  sortedlist.sorted (events a) → sortedlist.sorted (events (addEvent e a)).
Proof. apply sortedlist_facts.add_sorted. Qed.

Lemma merged_sorted (s o s' : Application) :
  merged s o = inr s' →
  sortedlist.sorted (events s) → sortedlist.sorted (events s').
Proof.
  unfold merged. intros H Hs. cbv zeta in H.
  repeat match type of H with
         | (if ?c then _ else _) = _ => destruct c; [discriminate H|]
         end.
  injection H as <-. by apply sortedlist_facts.update_sorted.
Qed.

Lemma split_halves_sorted (s : Application) (i : nat) :
  sortedlist.sorted (events s) →
  sortedlist.sorted (events (split_left s i))
  ∧ sortedlist.sorted (events (split_right s i)).
Proof.
  intros Hs. rewrite events_split_left, events_split_right. split.
  - by apply sortedlist_facts.slice_to_sorted.
  - by apply sortedlist_facts.slice_from_sorted.
Qed.

(** ** Desktop identifiers and construction *)

Section ResolverFacts.

Context (DESKTOPPATHS : list string).
Context (realpath : string → string).
Context (parse : string → option DesktopEntry).
Context (desktopre_group0 : string → option string).

Local Abbreviation probe := (probe realpath parse desktopre_group0).
Local Abbreviation depath_of := (depath_of realpath).
Local Abbreviation getDesktopFile :=
  (__getDesktopFile DESKTOPPATHS realpath parse desktopre_group0).
Local Abbreviation getDesktopIdFromDesktopUri :=
  (getDesktopIdFromDesktopUri DESKTOPPATHS realpath parse desktopre_group0).
Local Abbreviation initFromDesktopID :=
  (__initFromDesktopID DESKTOPPATHS realpath parse desktopre_group0).
Local Abbreviation new_Application :=
  (__init__ DESKTOPPATHS realpath parse desktopre_group0).
Local Abbreviation candidates := (candidates DESKTOPPATHS realpath).

(** When no location holds a descriptor that parses, the loop tries
    them all and leaves [finalid] at [None]. *)
Lemma probe_all_fail (paths : list string) (token : string)
    (de : DesktopEntry) (w : world) :
  (∀ p, p ∈ paths → parse (depath_of p token) = None) →
  probe paths token de w =
  (inr (None, de),
   mkWorld (heap w) (desktopCache w)
           (probed w ++ ((λ p, depath_of p token) <$> paths))).
Proof.
  revert w. induction paths as [|p paths IH]; intros w Hall.
  - cbn. rewrite app_nil_r. by destruct w.
  - cbn [probe]. rewrite bind_run. unfold de_parse at 1.
    rewrite (Hall p) by (by left).
    rewrite IH by (intros q Hq; apply Hall; by right).
    cbn [heap desktopCache probed fmap list_fmap].
    by rewrite <- app_assoc.
Qed.

Lemma getDesktopFile_miss_fail (token : string) (w : world) :
  desktopCache w !! Some token = None →
  (∀ p, p ∈ DESKTOPPATHS → parse (depath_of p token) = None) →
  getDesktopFile token w =
  (inr (None, DesktopEntry_new),
   mkWorld (heap w)
           (<[None := (None, DesktopEntry_new)]> (desktopCache w))
           (probed w ++ candidates token)).
Proof.
  intros Hmiss Hall. unfold __getDesktopFile.
  rewrite bind_run. unfold cache_get at 1. unfold Py.ostr in *.
  rewrite Hmiss.
  rewrite bind_run, (probe_all_fail _ _ _ _ Hall). reflexivity.
Qed.

Lemma truthy_lower (d : string) :
  Py.truthy (Some d) = true → Py.truthy (Some (Py.lower d)) = true.
Proof. by destruct d. Qed.

(** Construction from an identifier of which no descriptor parses. *)
Lemma init_unresolved (d : string) (path interp : Py.ostr)
    (pid tstart tend : Z) (w : world) :
  Py.truthy (Some d) = true →
  desktopCache w !! Some (defile_of (Py.lower d)) = None →
  (∀ p, p ∈ DESKTOPPATHS →
        parse (depath_of p (defile_of (Py.lower d))) = None) →
  new_Application (Some d) path pid tstart tend interp w =
  (inl ValueError_could_not_initialise,
   mkWorld (heap w)
           (<[None := (None, DesktopEntry_new)]> (desktopCache w))
           (probed w ++ candidates (defile_of (Py.lower d)))).
Proof.
  intros Ht Hmiss Hall. unfold __init__.
  rewrite Ht. cbn [default]. unfold id.
  unfold __initFromDesktopID, getDesktopIdFromDesktopUri.
  rewrite (truthy_lower d Ht). cbn [negb].
  rewrite !bind_bind, bind_run.
  by rewrite (getDesktopFile_miss_fail _ _ Hmiss Hall).
Qed.

(** C6, as the code has it. When no search location holds a descriptor
    that parses, construction from the identifier raises the
    [ValueError] of [__initFromDesktopID]; a pair with no identifier is
    stored in the cache under the key [None], not under the identifier,
    so the identifier is still absent from the cache, and a second
    construction from it tries every search location again before it
    raises again. Stated for identifiers of ASCII characters, and of the
    stored pair only that its identifier is [None]. *)
Theorem negative_result_not_reused (d : string) (path interp : Py.ostr)
    (pid tstart tend : Z) (w : world) :
  is_ascii d = true →
  Py.truthy (Some d) = true →
  desktopCache w !! Some (defile_of (Py.lower d)) = None →
  (∀ p, p ∈ DESKTOPPATHS →
        parse (depath_of p (defile_of (Py.lower d))) = None) →
  ∃ w1 w2,
    new_Application (Some d) path pid tstart tend interp w
      = (inl ValueError_could_not_initialise, w1)
    ∧ new_Application (Some d) path pid tstart tend interp w1
      = (inl ValueError_could_not_initialise, w2)
    ∧ (∃ de, desktopCache w1 !! None = Some (None, de))
    ∧ desktopCache w1 !! Some (defile_of (Py.lower d)) = None
    ∧ probed w1 = probed w ++ candidates (defile_of (Py.lower d))
    ∧ probed w2 = probed w1 ++ candidates (defile_of (Py.lower d))
    ∧ heap w2 = heap w.
Proof.
  intros _ Ht Hmiss Hall. eexists _, _.
  split; [by apply init_unresolved|].
  split.
  - apply init_unresolved; [done| |done].
    cbn [desktopCache]. by rewrite lookup_insert_ne.
  - cbn [desktopCache probed heap]. split_and!; try done.
    + eexists. by rewrite lookup_insert_eq.
    + by rewrite lookup_insert_ne.
Qed.

(** Construction from a path alone stops at the call of
    [__initFromPath], before any access to the cache or to the
    descriptor store. *)
Lemma init_path_branch (path : string) (interp : Py.ostr)
    (pid tstart tend : Z) (w : world) :
  Py.truthy (Some path) = true →
  new_Application None (Some path) pid tstart tend interp w =
  (inl (AttributeError "_Application__initFromPath"), w).
Proof. intros Ht. unfold __init__. cbn [Py.truthy]. cbn in Ht. by rewrite Ht. Qed.

(** Construction with neither an identifier nor a path. *)
Lemma init_needs_path_or_id (d path interp : Py.ostr)
    (pid tstart tend : Z) (w : world) :
  Py.truthy d = false → Py.truthy path = false →
  new_Application d path pid tstart tend interp w =
  (inl ValueError_needs_path_or_id, w).
Proof. intros Hd Hp. unfold __init__. by rewrite Hd, Hp. Qed.

(** Construction from an identifier raises the [ValueError] of
    [__initFromDesktopID] exactly when the lookup returns no identifier. *)
Lemma init_from_desktopid_fails_iff (d : string) (path interp : Py.ostr)
    (pid tstart tend : Z) (w : world) :
  Py.truthy (Some d) = true →
  (new_Application (Some d) path pid tstart tend interp w).1
    = inl ValueError_could_not_initialise
  ↔ ∃ did de,
      (getDesktopIdFromDesktopUri (Py.lower d) w).1 = inr (did, de)
      ∧ Py.truthy did = false.
Proof.
  intros Ht. unfold __init__. rewrite Ht. cbn [default]. unfold id.
  unfold __initFromDesktopID. rewrite !bind_bind, bind_run.
  destruct (getDesktopIdFromDesktopUri (Py.lower d) w)
    as [[e|[did de]] w1] eqn:Hr; cbn [fst snd].
  - split; [|by intros (? & ? & ? & _)].
    unfold getDesktopIdFromDesktopUri in Hr.
    rewrite (truthy_lower d Ht) in Hr. cbn [negb] in Hr.
    rewrite bind_run in Hr. unfold __getDesktopFile in Hr.
    rewrite bind_run in Hr. unfold cache_get at 1 in Hr.
    destruct (desktopCache w !! _) as [r|]; [done|].
    rewrite bind_run in Hr.
    destruct (probe _ _ _ _) as [[e'|r] w2] eqn:Hp; [|done].
    injection Hr as <- <-. clear Ht. intros He. exfalso.
    revert w w2 e' Hp He. generalize DesktopEntry_new.
    generalize (defile_of (Py.lower d)).
    induction DESKTOPPATHS as [|p ps IH]; intros tok de0 w w2 e' Hp He;
      [done|].
    cbn [probe] in Hp. rewrite bind_run in Hp.
    unfold de_parse at 1 in Hp.
    destruct (parse _) as [de'|].
    + destruct (desktopre_group0 _); [done|].
      injection Hp as <- <-. done.
    + eapply IH; eauto.
  - destruct did as [did|]; cbn [Py.truthy].
    + destruct (String.eqb_spec did "") as [->|Hne].
      * split; [|done]. intros _. by exists (Some ""), de.
      * rewrite bind_run. cbn. split; [done|].
        intros (? & ? & [= <- <-] & Hf). cbn in Hf.
        apply String.eqb_neq in Hne. by rewrite Hne in Hf.
    + split; [eauto|done].
Qed.

End ResolverFacts.

(** C5 fails on construction from a path: the call stops with
    [AttributeError], because the method [__initFromPath] called on line
    64 is not defined. The world is as before, so the lookup of desktop
    identifiers did not run. The other two cases are as claimed. *)
Lemma init_from_path_raises :
  Examples.new_Application None (Some "/usr/bin/ristretto") 21 0 300 None world0
  = (inl (AttributeError "_Application__initFromPath"), world0)
  ∧ Examples.new_Application None None 21 0 300 None world0
    = (inl ValueError_needs_path_or_id, world0)
  ∧ (Examples.new_Application (Some "foo.desktop") None 21 0 300 None world0).1
    = inl ValueError_could_not_initialise
  ∧ (Examples.new_Application (Some "ristretto.desktop") None 21 0 300 None
       world0).1 = inr 0%nat.
Proof. split_and!; by vm_compute. Qed.

Lemma negative_result_not_reused_witness :
  ∃ w1 w2,
    Examples.new_Application (Some "foo.desktop") None 21 0 300 None world0
      = (inl ValueError_could_not_initialise, w1)
    ∧ Examples.new_Application (Some "foo.desktop") None 21 0 300 None w1
      = (inl ValueError_could_not_initialise, w2)
    ∧ probed w2 = probed w1 ++ candidates Examples.paths id "foo.desktop".
Proof.
  destruct (negative_result_not_reused Examples.paths id Examples.parse
              Examples.group0 "foo.desktop" None None 21 0 300 world0)
    as (w1 & w2 & H1 & H2 & _ & _ & _ & Hp & _).
  - reflexivity.
  - reflexivity.
  - reflexivity.
  - intros p Hp. vm_compute in Hp.
    apply elem_of_cons in Hp as [->|Hp]; [reflexivity|].
    apply list_elem_of_singleton in Hp as ->. reflexivity.
  - exists w1, w2. by split_and!.
Defined.

(** C6, as stated, does not hold: the second construction from
    ["foo.desktop"] raises again, but after it has tried both search
    locations again. *)
Lemma second_resolution_probes_again :
  ∃ w1 w2,
    Examples.new_Application (Some "foo.desktop") None 21 0 300 None world0
      = (inl ValueError_could_not_initialise, w1)
    ∧ Examples.new_Application (Some "foo.desktop") None 21 0 300 None w1
      = (inl ValueError_could_not_initialise, w2)
    ∧ probed w1 = ["/usr/share/applications/foo.desktop";
                   "/usr/local/share/applications/foo.desktop"]
    ∧ probed w2 = probed w1 ++ probed w1
    ∧ probed w2 ≠ probed w1.
Proof.
  eexists _, _. split; [by vm_compute|]. split; [by vm_compute|].
  split_and!; [reflexivity..|discriminate].
Qed.

(** * Further properties of the code *)

(** ** split *)

Lemma split_left_fields (s : Application) (i : nat) :
  init (split_left s i) = init s
  ∧ desktopid (split_left s i) = desktopid s
  ∧ interpreterid (split_left s i) = interpreterid s
  ∧ path (split_left s i) = path s ∧ pid (split_left s i) = pid s
  ∧ tstart (split_left s i) = tstart s
  ∧ cmdline (split_left s i) = cmdline s
  ∧ fds (split_left s i) = fds s ∧ _uid (split_left s i) = _uid s
  ∧ tend (split_left s i)
    = from_option time (tend s) (list.last (take i (events s))).
Proof.
  unfold split_left, sortedlist.slice_to. cbv zeta.
  by destruct (list.last _).
Qed.

Lemma split_right_fields (s : Application) (i : nat) :
  init (split_right s i) = init s
  ∧ desktopid (split_right s i) = desktopid s
  ∧ interpreterid (split_right s i) = interpreterid s
  ∧ path (split_right s i) = path s ∧ pid (split_right s i) = pid s
  ∧ tend (split_right s i) = tend s
  ∧ cmdline (split_right s i) = cmdline s
  ∧ fds (split_right s i) = fds s ∧ _uid (split_right s i) = _uid s
  ∧ tstart (split_right s i)
    = from_option time (tstart s) (head (drop i (events s))).
Proof.
  unfold split_right, sortedlist.slice_from. cbv zeta.
  by destruct (head _).
Qed.

(** X1. With the events sorted and [beforeEnd] not after [afterStart],
    [split] raises its [IndexError] exactly when some event has its time
    in the closed range between the two bounds, the bounds included; it
    then leaves the world as it was. Otherwise it returns. *)
Theorem split_raises_iff
    (self : loc) (beforeEnd afterStart : Z) (w : world) (s : Application) :
  heap w !! self = Some s →
  sortedlist.sorted (events s) →
  beforeEnd ≤ afterStart →
  (split self beforeEnd afterStart w = (inl IndexError_events_in_gap, w)
   ↔ ∃ e, e ∈ events s ∧ beforeEnd ≤ time e ≤ afterStart)
  ∧ ((∃ l r w', split self beforeEnd afterStart w = (inr (l, r), w'))
     ↔ ¬ ∃ e, e ∈ events s ∧ beforeEnd ≤ time e ≤ afterStart).
Proof.
  intros Hs Hsorted Hba.
  pose proof (sortedlist_facts.cuts_differ_iff (events s) beforeEnd afterStart
                Hsorted Hba) as Hcut.
  destruct (split_fails_iff self beforeEnd afterStart w s Hs)
    as [Hfail|[Heq (l & r & w' & Hok)]].
  - assert (∃ e, e ∈ events s ∧ beforeEnd ≤ time e ≤ afterStart) as Hex.
    { apply Hcut. intros Heq.
      rewrite (split_run _ _ _ _ _ Hs) in Hfail. cbv zeta in Hfail.
      rewrite Heq, Nat.eqb_refl in Hfail. cbn [negb] in Hfail.
      discriminate Hfail. }
    split; [by split|]. split; [|by intros []].
    intros (l & r & w' & Hok). congruence.
  - assert (¬ ∃ e, e ∈ events s ∧ beforeEnd ≤ time e ≤ afterStart) as Hno.
    { intros Hex. by apply Hcut in Hex. }
    split; [|by split; eauto]. split; [|by intros ?]. congruence.
Qed.

Lemma split_raises_iff_witness :
  split 0%nat 140 141 Examples.w_ristretto
  = (inl IndexError_events_in_gap, Examples.w_ristretto).
Proof.
  apply (proj1 (split_raises_iff 0%nat 140 141 Examples.w_ristretto
                  Examples.ristretto eq_refl
                  ltac:(repeat constructor) ltac:(lia))).
  exists (mkEvent 0 140 "file-create"). split; [vm_compute; left|simpl; lia].
Defined.

(** X2. The two instances that [split] returns are copies of the
    original in all attributes but the events and one end of the time
    window: identifier, interpreter, pid, path, command line, descriptor
    table and key are the original's in both. The left one keeps the time
    of start and ends at its last event, if it has one, which is before
    [beforeEnd]; the right one keeps the time of end and starts at its
    first event, if it has one, which is after [afterStart]. *)
Theorem split_halves_attributes
    (self l r : loc) (beforeEnd afterStart : Z) (w w' : world) (s : Application) :
  heap w !! self = Some s →
  sortedlist.sorted (events s) →
  split self beforeEnd afterStart w = (inr (l, r), w') →
  ∃ sl sr,
    heap w' !! l = Some sl ∧ heap w' !! r = Some sr
    ∧ heap w !! l = None ∧ heap w !! r = None
    ∧ (∀ k, k ≠ l → k ≠ r → heap w' !! k = heap w !! k)
    ∧ (∀ a, a ∈ [sl; sr] →
         init a = init s ∧ desktopid a = desktopid s
         ∧ interpreterid a = interpreterid s ∧ pid a = pid s
         ∧ path a = path s ∧ cmdline a = cmdline s
         ∧ fds a = fds s ∧ uid a = uid s)
    ∧ tstart sl = tstart s ∧ tend sr = tend s
    ∧ tend sl = from_option time (tend s) (list.last (events sl))
    ∧ tstart sr = from_option time (tstart s) (head (events sr))
    ∧ (events sl ≠ [] → tend sl < beforeEnd)
    ∧ (events sr ≠ [] → afterStart < tstart sr).
Proof.
  intros Hs Hsorted. rewrite (split_run _ _ _ _ _ Hs). cbv zeta.
  destruct (Nat.eqb_spec (sortedlist.bisect_left (events s) beforeEnd)
                         (sortedlist.bisect_right (events s) afterStart))
    as [Hcut|]; cbn [negb]; [|done].
  set (il := sortedlist.bisect_left (events s) beforeEnd) in *.
  set (l1 := fresh (dom (heap w))).
  set (l2 := fresh (dom (<[l1 := split_left s il]> (heap w)))).
  intros [= <- <- <-].
  assert (heap w !! l1 = None) as H1.
  { apply not_elem_of_dom, is_fresh. }
  assert (<[l1 := split_left s il]> (heap w) !! l2 = None) as H2.
  { apply not_elem_of_dom, is_fresh. }
  assert (l2 ≠ l1) as H21.
  { intros Heq. rewrite Heq, lookup_insert_eq in H2. done. }
  rewrite lookup_insert_ne in H2 by done.
  pose proof (split_left_fields s il) as (? & ? & ? & ? & ? & ? & ? & ? & ? & Hte).
  pose proof (split_right_fields s (sortedlist.bisect_right (events s) afterStart))
    as (? & ? & ? & ? & ? & ? & ? & ? & ? & Hts).
  exists (split_left s il),
         (split_right s (sortedlist.bisect_right (events s) afterStart)).
  rewrite with_heap_heap, events_split_left, events_split_right.
  split_and!; try done.
  - rewrite lookup_insert_ne by done. by rewrite lookup_insert_eq.
  - by rewrite lookup_insert_eq.
  - intros k Hk1 Hk2. by rewrite !lookup_insert_ne.
  - intros a [->|[->|Ha]%elem_of_cons]%elem_of_cons;
      [by split_and!|by split_and!|].
    by apply not_elem_of_nil in Ha.
  - intros Hne. rewrite Hte. unfold il in *.
    destruct (list.last (take _ (events s))) as [e|] eqn:Hlast.
    + cbn. apply (sortedlist_facts.elem_of_take_bisect_left (events s)); [done|].
      apply last_Some in Hlast as [l' Hl']. rewrite Hl'.
      apply elem_of_app. right. by left.
    + by apply last_None in Hlast.
  - intros Hne. rewrite Hts.
    destruct (drop _ (events s)) as [|e l'] eqn:Hd; [done|]. cbn.
    apply (sortedlist_facts.elem_of_drop_bisect_right (events s)); [done|].
    rewrite Hd. by left.
Qed.

Lemma split_halves_attributes_witness :
  ∃ sl sr,
    heap (split 0%nat 139 139 Examples.w_ristretto).2 !! 1%nat = Some sl
    ∧ heap (split 0%nat 139 139 Examples.w_ristretto).2 !! 2%nat = Some sr
    ∧ tstart sl = 0 ∧ tend sr = 300.
Proof.
  destruct (split_halves_attributes 0%nat 1%nat 2%nat 139 139
              Examples.w_ristretto
              (split 0%nat 139 139 Examples.w_ristretto).2
              Examples.ristretto eq_refl ltac:(repeat constructor))
    as (sl & sr & Hl & Hr & _ & _ & _ & _ & Hts & Hte & _).
  - by vm_compute.
  - exists sl, sr. by split_and!.
Defined.

(** ** merge *)

(** The outcome of the three checks of [merge], in their order. *)
Lemma merged_cases (s o : Application) :
  (init s ≠ init o → merged s o = inl ValueError_init_mismatch)
  ∧ (init s = init o → pid s ≠ pid o →
     merged s o = inl ValueError_pid_mismatch)
  ∧ (init s = init o → pid s = pid o →
     desktopid s ≠ desktopid o → interpreterid s ≠ desktopid o →
     desktopid s ≠ interpreterid o →
     merged s o = inl ValueError_desktopid_mismatch)
  ∧ ((∃ s', merged s o = inr s') ↔ mergeable s o).
Proof.
  unfold merged, mergeable.
  destruct (Bool.eqb (init s) (init o)) eqn:Hi; cbn [negb].
  - apply eqb_prop in Hi.
    destruct (Z.eqb_spec (pid s) (pid o)) as [Hp|Hp]; cbn [negb].
    + cbv zeta. repeat case_bool_decide; cbn [negb andb].
      all: split_and!; try done; try (split; [tauto | eauto]).
      split; [by intros [? [=]]|]. intros (_ & _ & ?). tauto.
    + split_and!; try done. split; [by intros [? [=]]|tauto].
  - apply eqb_false_iff in Hi.
    split_and!; try done. split; [by intros [? [=]]|tauto].
Qed.

(** X4. [merge] returns exactly when the two instances are mergeable.
    Otherwise it raises the error of the first check that fails, in the
    order initialisation status, pid, identifier, and the world is as
    before the call. *)
Theorem merge_outcome (self other : loc) (w : world) (s o : Application) :
  heap w !! self = Some s → heap w !! other = Some o →
  (init s ≠ init o →
     merge self other w = (inl ValueError_init_mismatch, w))
  ∧ (init s = init o → pid s ≠ pid o →
     merge self other w = (inl ValueError_pid_mismatch, w))
  ∧ (init s = init o → pid s = pid o →
     desktopid s ≠ desktopid o → interpreterid s ≠ desktopid o →
     desktopid s ≠ interpreterid o →
     merge self other w = (inl ValueError_desktopid_mismatch, w))
  ∧ ((∃ w', merge self other w = (inr self, w')) ↔ mergeable s o).
Proof.
  intros Hs Ho. rewrite (merge_run _ _ _ _ _ Hs Ho).
  destruct (merged_cases s o) as (H1 & H2 & H3 & H4).
  split_and!.
  - intros Hi. by rewrite H1.
  - intros Hi Hp. by rewrite H2.
  - intros Hi Hp Ha Hb Hc. by rewrite H3.
  - rewrite <- H4. destruct (merged s o) as [e|s']; split.
    + by intros [? [=]].
    + by intros [? [=]].
    + eauto.
    + eauto.
Qed.

Lemma merge_outcome_witness :
  merge 0%nat 1%nat Examples2.w_running_gedit
  = (inl ValueError_desktopid_mismatch, Examples2.w_running_gedit).
Proof.
  apply (proj1 (proj2 (proj2 (merge_outcome 0%nat 1%nat
           Examples2.w_running_gedit Examples.running Examples2.gedit
           eq_refl eq_refl))));
    try reflexivity; discriminate.
Defined.

(** X5. A merge that succeeds takes the path and the command line of
    [other] only when [self] has none (absent or empty) and [other] has
    one; it never changes the pid, the initialisation status or the
    descriptor table of [self], so the descriptors of [other] are not
    taken over. *)
Theorem merge_fills_missing (self other : loc) (w w' : world)
    (s o : Application) :
  heap w !! self = Some s → heap w !! other = Some o →
  merge self other w = (inr self, w') →
  ∃ s',
    heap w' !! self = Some s'
    ∧ (Py.truthy (path s) = true → path s' = path s)
    ∧ (Py.truthy (path s) = false → Py.truthy (path o) = true →
       path s' = path o)
    ∧ (Py.truthy (path o) = false → path s' = path s)
    ∧ (Py.truthy (cmdline s) = true → cmdline s' = cmdline s)
    ∧ (Py.truthy (cmdline s) = false → Py.truthy (cmdline o) = true →
       cmdline s' = cmdline o)
    ∧ (Py.truthy (cmdline o) = false → cmdline s' = cmdline s)
    ∧ pid s' = pid s ∧ init s' = init s ∧ fds s' = fds s.
Proof.
  intros Hs Ho. rewrite (merge_run _ _ _ _ _ Hs Ho).
  destruct (merged s o) as [e|s'] eqn:Hm; [done|].
  intros [= <-]. exists s'. rewrite with_heap_heap, lookup_insert_eq.
  split; [done|].
  unfold merged in Hm. cbv zeta in Hm.
  repeat match type of Hm with
         | (if ?c then _ else _) = _ => destruct c; [discriminate Hm|]
         end.
  injection Hm as <-. fields.
  destruct (Py.truthy (path s)), (Py.truthy (path o)),
    (Py.truthy (cmdline s)), (Py.truthy (cmdline o)); cbn [negb andb];
    by split_and!.
Qed.

Lemma merge_fills_missing_witness :
  ∃ s',
    heap (merge 0%nat 1%nat Examples2.w_running_ended_path).2 !! 0%nat
    = Some s'
    ∧ path s' = Some "/usr/bin/ristretto".
Proof.
  destruct (merge_fills_missing 0%nat 1%nat Examples2.w_running_ended_path
              (merge 0%nat 1%nat Examples2.w_running_ended_path).2
              Examples.running Examples2.ended_with_path eq_refl eq_refl)
    as (s' & Hl & _ & Hp & _).
  - by vm_compute.
  - exists s'. split; [done|]. by apply Hp.
Defined.

(** ** The event list under addEvent and merge *)

Lemma add_perm (l : list Event) (e : Event) : sortedlist.add l e ≡ₚ e :: l.
Proof.
  unfold sortedlist.add. cbv zeta.
  rewrite <- Permutation_middle. by rewrite take_drop.
Qed.

Lemma update_perm (l es : list Event) : sortedlist.update l es ≡ₚ l ++ es.
Proof.
  unfold sortedlist.update. revert l.
  induction es as [|e es IH]; intros l; cbn [foldl].
  - by rewrite app_nil_r.
  - rewrite IH, add_perm. by rewrite <- Permutation_middle.
Qed.

Lemma set_of_elem (seen : list nat) (xs : list Event) (e : Event) :
  e ∈ set_of seen xs → e ∈ xs ∧ eid e ∉ seen.
Proof.
  revert seen. induction xs as [|x xs IH]; intros seen; cbn [set_of].
  - by intros ?%not_elem_of_nil.
  - case_bool_decide as Hx.
    + intros [? ?]%IH. split; [by right|done].
    + intros [->|[He Hn]%IH]%elem_of_cons.
      * split; [by left|done].
      * split; [by right|]. intros Hin. apply Hn. by right.
Qed.

Lemma set_of_cover (seen : list nat) (xs : list Event) (e : Event) :
  e ∈ xs → eid e ∈ seen ∨ eid e ∈ eid <$> set_of seen xs.
Proof.
  revert seen. induction xs as [|x xs IH]; intros seen; cbn [set_of].
  - by intros ?%not_elem_of_nil.
  - intros [->|He]%elem_of_cons.
    + case_bool_decide; [by left|]. right. cbn. by left.
    + case_bool_decide; [by apply IH|].
      destruct (IH (eid x :: seen) He) as [[->|?]%elem_of_cons|?].
      * right. cbn. by left.
      * by left.
      * right. cbn. by right.
Qed.

Lemma set_of_NoDup (seen : list nat) (xs : list Event) :
  NoDup (eid <$> set_of seen xs).
Proof.
  revert seen. induction xs as [|x xs IH]; intros seen; cbn [set_of].
  - constructor.
  - case_bool_decide; [done|]. cbn. constructor; [|done].
    intros (y & Hy & [_ Hn]%set_of_elem)%list_elem_of_fmap.
    apply Hn. rewrite Hy. by left.
Qed.

Lemma set_of_id (seen : list nat) (xs : list Event) :
  NoDup (eid <$> xs) → (∀ e, e ∈ xs → eid e ∉ seen) → set_of seen xs = xs.
Proof.
  revert seen. induction xs as [|x xs IH]; intros seen Hnd Hdis; [done|].
  cbn [set_of]. cbn in Hnd. apply NoDup_cons in Hnd as [Hx Hnd].
  rewrite bool_decide_eq_false_2 by (apply Hdis; by left).
  f_equal. apply IH; [done|].
  intros e He [Heq|Hin]%elem_of_cons.
  - apply Hx. rewrite <- Heq. by apply list_elem_of_fmap_2.
  - apply (Hdis e); [by right|done].
Qed.

(** Proves that a list of events given in full is sorted. *)
Ltac solve_sorted :=
  unfold sortedlist.sorted; repeat (constructor; try (cbn; lia)).

(** X6. [addEvent] keeps the events sorted by time and adds the event and
    nothing else: the new list is a rearrangement of the old one with the
    event. *)
Theorem addEvent_sorted_perm (e : Event) (a : Application) :
  sortedlist.sorted (events a) →
  sortedlist.sorted (events (addEvent e a))
  ∧ events (addEvent e a) ≡ₚ e :: events a
  ∧ (∀ x, x ∈ events (addEvent e a) ↔ x = e ∨ x ∈ events a)
  ∧ length (events (addEvent e a)) = S (length (events a)).
Proof.
  intros Hs. split; [by apply sortedlist_facts.add_sorted|].
  cbn [addEvent set_events events].
  pose proof (add_perm (events a) e) as Hp.
  split; [done|]. split.
  - intros x. rewrite Hp. apply elem_of_cons.
  - by rewrite Hp.
Qed.

Lemma addEvent_sorted_perm_witness :
  sortedlist.sorted (events Examples2.early)
  ∧ length (events Examples2.early) = 2%nat.
Proof.
  pose proof (addEvent_sorted_perm (mkEvent 2 30 "file-read")
                (addEvent (mkEvent 1 20 "file-open") Examples.running)
                ltac:(solve_sorted)) as (Hs & _ & _ & Hl).
  split; [exact Hs|exact Hl].
Defined.

(** X7. After a merge that succeeds, the events of [self] are still
    sorted by time and are its former events together with the events of
    [other] that were not among them as objects: every former event is
    kept, every event of [other] is represented, nothing else comes in,
    and no event object appears twice if none did before. *)
Theorem merge_events_union (self other : loc) (w w' : world)
    (s o : Application) :
  heap w !! self = Some s → heap w !! other = Some o →
  sortedlist.sorted (events s) →
  merge self other w = (inr self, w') →
  ∃ s',
    heap w' !! self = Some s'
    ∧ sortedlist.sorted (events s')
    ∧ events s' ≡ₚ events s ++ set_minus (events o) (events s)
    ∧ (∀ e, e ∈ events s → e ∈ events s')
    ∧ (∀ e, e ∈ events o → eid e ∈ eid <$> events s')
    ∧ (∀ e, e ∈ events s' → e ∈ events s ∨ e ∈ events o)
    ∧ (NoDup (eid <$> events s) → NoDup (eid <$> events s')).
Proof.
  intros Hs Ho Hsorted. rewrite (merge_run _ _ _ _ _ Hs Ho).
  destruct (merged s o) as [e|s'] eqn:Hm; [done|].
  intros [= <-]. exists s'. rewrite with_heap_heap, lookup_insert_eq.
  split; [done|]. split; [by eapply merged_sorted|].
  assert (events s' = sortedlist.update (events s)
                        (set_minus (events o) (events s))) as ->.
  { unfold merged in Hm. cbv zeta in Hm.
    repeat match type of Hm with
           | (if ?c then _ else _) = _ => destruct c; [discriminate Hm|]
           end.
    by injection Hm as <-. }
  pose proof (update_perm (events s) (set_minus (events o) (events s))) as Hp.
  split; [done|]. split_and!.
  - intros e He. rewrite Hp. apply elem_of_app. by left.
  - intros e He. rewrite Hp, fmap_app. apply elem_of_app.
    by apply set_of_cover.
  - intros e. rewrite Hp. intros [?|[? _]%set_of_elem]%elem_of_app; auto.
  - intros Hnd. rewrite Hp, fmap_app. apply NoDup_app. split; [done|].
    split; [|apply set_of_NoDup].
    intros x Hx (y & -> & [_ Hy]%set_of_elem)%list_elem_of_fmap. done.
Qed.

Lemma merge_events_union_witness :
  ∃ s',
    heap (merge 0%nat 1%nat Examples2.w_early_late).2 !! 0%nat = Some s'
    ∧ sortedlist.sorted (events s')
    ∧ length (events s') = 3%nat.
Proof.
  destruct (merge_events_union 0%nat 1%nat Examples2.w_early_late
              (merge 0%nat 1%nat Examples2.w_early_late).2
              Examples2.early Examples2.late eq_refl eq_refl
              ltac:(solve_sorted))
    as (s' & Hl & Hsorted & Hp & _).
  - by vm_compute.
  - exists s'. split; [done|]. split; [done|]. by rewrite Hp.
Defined.

Lemma set_minus_covered (xs ys : list Event) :
  (∀ e, e ∈ xs → eid e ∈ eid <$> ys) → set_minus xs ys = [].
Proof. apply set_of_seen. Qed.

Lemma merged_events (s o s' : Application) :
  merged s o = inr s' →
  events s' = sortedlist.update (events s) (set_minus (events o) (events s)).
Proof.
  unfold merged. intros Hm. cbv zeta in Hm.
  repeat match type of Hm with
         | (if ?c then _ else _) = _ => destruct c; [discriminate Hm|]
         end.
  by injection Hm as <-.
Qed.

(** Merging the same instance in once more changes nothing. *)
Lemma merged_again (s o s' : Application) :
  merged s o = inr s' → merged s' o = inr s'.
Proof.
  intros Hm.
  assert (set_minus (events o) (events s') = []) as Hev.
  { apply set_minus_covered. intros e He.
    rewrite (merged_events _ _ _ Hm), update_perm, fmap_app.
    apply elem_of_app. by apply set_of_cover. }
  revert Hm Hev. unfold merged. cbv zeta.
  destruct (Bool.eqb (init s) (init o)) eqn:Hi; cbn [negb]; [|done].
  destruct (pid s =? pid o) eqn:Hp; cbn [negb]; [|done].
  destruct (decide (desktopid s = desktopid o)) as [Hd|Hd];
    [rewrite (bool_decide_eq_false_2 (desktopid s ≠ desktopid o)) by tauto
    |rewrite (bool_decide_eq_true_2 (desktopid s ≠ desktopid o)) by done];
  (destruct (decide (interpreterid s = desktopid o)) as [Hio|Hio];
    [rewrite (bool_decide_eq_true_2 _ Hio)
    |rewrite (bool_decide_eq_false_2 _ Hio)]);
  (destruct (decide (desktopid s = interpreterid o)) as [Hdi|Hdi];
    [rewrite (bool_decide_eq_true_2 _ Hdi)
    |rewrite (bool_decide_eq_false_2 _ Hdi)]);
  cbn [negb andb]; try done.
  all: destruct (Py.truthy (path s)) eqn:Hps, (Py.truthy (path o)) eqn:Hpo,
    (Py.truthy (cmdline s)) eqn:Hcs, (Py.truthy (cmdline o)) eqn:Hco;
    cbn [negb andb].
  all: intros [= <-]; fields; intros Hev; rewrite Hev.
  all: rewrite ?Hi, ?Hp, ?Hps, ?Hpo, ?Hcs, ?Hco, ?eqb_reflx, ?Z.eqb_refl;
    cbn [negb andb].
  all: repeat case_bool_decide; cbn [negb andb]; try congruence.
  all: rewrite ?Hps, ?Hpo, ?Hcs, ?Hco; cbn [negb andb].
  all: rewrite ?Z.min_assoc, ?Z.min_id, ?Z.max_assoc, ?Z.max_id.
  all: unfold sortedlist.update at 1; cbn [foldl]; fields; try reflexivity.
  all: congruence.
Qed.

Lemma merged_self_again (s s' : Application) :
  merged s s = inr s' → merged s' s' = inr s'.
Proof.
  unfold merged. cbv zeta. rewrite !eqb_reflx, !Z.eqb_refl. cbn [negb].
  rewrite (bool_decide_eq_false_2 (desktopid s ≠ desktopid s)) by tauto.
  cbn [andb].
  destruct (Py.truthy (path s)) eqn:Hps, (Py.truthy (cmdline s)) eqn:Hcs;
    cbn [negb andb].
  all: intros [= <-]; fields.
  all: rewrite bool_decide_eq_false_2 by tauto; cbn [andb].
  all: rewrite !set_minus_self, !Z.min_id, !Z.max_id, ?Hps, ?Hcs.
  all: unfold sortedlist.update; cbn [foldl negb andb]; reflexivity.
Qed.

(** X8. [merge] is idempotent: when [self.merge(other)] has succeeded,
    calling it again succeeds and leaves the world exactly as the first
    call left it. *)
Theorem merge_idempotent (self other : loc) (w w1 : world) :
  is_Some (heap w !! self) → is_Some (heap w !! other) →
  merge self other w = (inr self, w1) →
  merge self other w1 = (inr self, w1).
Proof.
  intros [s Hs] [o Ho]. rewrite (merge_run _ _ _ _ _ Hs Ho).
  destruct (merged s o) as [e|s'] eqn:Hm; [done|].
  intros [= <-].
  destruct (decide (self = other)) as [->|Hne].
  - assert (o = s) as -> by congruence.
    rewrite (merge_run _ _ _ s' s');
      [|by rewrite with_heap_heap, lookup_insert_eq..].
    rewrite (merged_self_again _ _ Hm).
    by rewrite with_heap_heap, with_heap_twice, insert_insert_eq.
  - rewrite (merge_run _ _ _ s' o).
    + rewrite (merged_again _ _ _ Hm).
      by rewrite with_heap_heap, with_heap_twice, insert_insert_eq.
    + by rewrite with_heap_heap, lookup_insert_eq.
    + by rewrite with_heap_heap, lookup_insert_ne.
Qed.

Lemma merge_idempotent_witness :
  merge 0%nat 1%nat (merge 0%nat 1%nat Examples2.w_early_late).2
  = (inr 0%nat, (merge 0%nat 1%nat Examples2.w_early_late).2).
Proof.
  apply (merge_idempotent 0%nat 1%nat Examples2.w_early_late).
  - by eexists.
  - by eexists.
  - by vm_compute.
Defined.

(** ** split followed by merge *)

Lemma add_last (l : list Event) (e : Event) :
  sortedlist.sorted l → (∀ x, x ∈ l → time x ≤ time e) →
  sortedlist.add l e = l ++ [e].
Proof.
  intros Hs Hle. unfold sortedlist.add. cbv zeta.
  assert (sortedlist.bisect_right l (time e) = length l) as ->.
  { pose proof (sortedlist_facts.bisect_right_le_length l (time e)) as Hr.
    destruct (decide (sortedlist.bisect_right l (time e) = length l))
      as [|Hne]; [done|].
    destruct (lookup_lt_is_Some_2 l (sortedlist.bisect_right l (time e)))
      as [x Hx]; [lia|].
    pose proof (sortedlist_facts.bisect_right_spec l (time e) _ x Hs Hx) as Hi.
    assert (time x ≤ time e) as Hxe
      by (apply Hle; by eapply list_elem_of_lookup_2).
    apply Hi in Hxe. lia. }
  by rewrite take_ge, drop_ge by lia.
Qed.

Lemma update_sorted_app (l1 l2 : list Event) :
  sortedlist.sorted (l1 ++ l2) → sortedlist.update l1 l2 = l1 ++ l2.
Proof.
  unfold sortedlist.update. revert l1.
  induction l2 as [|e l2 IH]; intros l1 Hs; cbn [foldl].
  - by rewrite app_nil_r.
  - rewrite add_last.
    + rewrite IH; rewrite <- app_assoc; done.
    + unfold sortedlist.sorted in *. by apply StronglySorted_app_1_l in Hs.
    + intros x Hx. unfold sortedlist.sorted in Hs.
      apply (StronglySorted_app_1_elem_of _ _ _ x e) in Hs; [done..|by left].
Qed.

(** A list sorted by time whose times are pairwise distinct is the only
    sorted arrangement of its events: inserting the same events one by
    one gives it back, in whatever order they are inserted. *)
Lemma update_any_order (l1 es l : list Event) :
  sortedlist.sorted l → NoDup (time <$> l) →
  sortedlist.sorted l1 → l1 ++ es ≡ₚ l →
  sortedlist.update l1 es = l.
Proof.
  intros Hl Hnd Hl1 Hperm. symmetry.
  apply (StronglySorted_unique_strong (λ a b : Event, time a ≤ time b)).
  - intros x1 x2 Hx1 Hx2 H12 H21. rewrite update_perm, Hperm in Hx2.
    apply list_elem_of_lookup_1 in Hx1 as [i Hi].
    apply list_elem_of_lookup_1 in Hx2 as [j Hj].
    assert (i = j) as Hij.
    { apply (NoDup_lookup (time <$> l) i j (time x1)); [done|..].
      - by rewrite list_lookup_fmap, Hi.
      - rewrite list_lookup_fmap, Hj. cbn. f_equal. lia. }
    rewrite Hij, Hj in Hi. by injection Hi.
  - done.
  - by apply sortedlist_facts.update_sorted.
  - by rewrite update_perm.
Qed.

(** X3. Splitting an instance and merging the right half back into the
    left one restores the event list of the original, when its events are
    distinct objects with pairwise distinct times: the list comes back the
    same whatever the order in which the events of the right half are
    inserted. Identifier, interpreter, pid, path, command line and
    descriptor table are the original's, and so is the time window when
    every event lies inside it. *)
Theorem split_then_merge (self l r : loc) (beforeEnd afterStart : Z)
    (w w1 : world) (s : Application) :
  heap w !! self = Some s →
  sortedlist.sorted (events s) →
  NoDup (eid <$> events s) →
  NoDup (time <$> events s) →
  split self beforeEnd afterStart w = (inr (l, r), w1) →
  ∃ w2 m sl sr,
    heap w1 !! l = Some sl ∧ heap w1 !! r = Some sr
    ∧ merge l r w1 = (inr l, w2)
    ∧ heap w2 !! l = Some m
    ∧ events m = events s
    ∧ (∀ es, es ≡ₚ set_minus (events sr) (events sl) →
             sortedlist.update (events sl) es = events s)
    ∧ desktopid m = desktopid s ∧ interpreterid m = interpreterid s
    ∧ pid m = pid s ∧ path m = path s ∧ cmdline m = cmdline s
    ∧ fds m = fds s
    ∧ tstart m ≤ tstart s ∧ tend s ≤ tend m
    ∧ ((∀ e, e ∈ events s → tstart s ≤ time e ≤ tend s) →
       tstart m = tstart s ∧ tend m = tend s).
Proof.
  intros Hs Hsorted Hnd Hnt. rewrite (split_run _ _ _ _ _ Hs). cbv zeta.
  destruct (Nat.eqb_spec (sortedlist.bisect_left (events s) beforeEnd)
                         (sortedlist.bisect_right (events s) afterStart))
    as [Hcut|]; cbn [negb]; [|done].
  rewrite <- Hcut.
  set (il := sortedlist.bisect_left (events s) beforeEnd) in *.
  set (l1 := fresh (dom (heap w))).
  set (l2 := fresh (dom (<[l1 := split_left s il]> (heap w)))).
  intros [= <- <- <-].
  assert (l2 ≠ l1) as H21.
  { apply (fresh_loc_ne _ _ (split_left s il)). by rewrite lookup_insert_eq. }
  assert (heap (with_heap (<[l2:=split_right s il]>
                  (<[l1:=split_left s il]> (heap w))) w) !! l1
          = Some (split_left s il)) as Hl1.
  { rewrite with_heap_heap, lookup_insert_ne by done.
    by rewrite lookup_insert_eq. }
  assert (heap (with_heap (<[l2:=split_right s il]>
                  (<[l1:=split_left s il]> (heap w))) w) !! l2
          = Some (split_right s il)) as Hl2.
  { by rewrite with_heap_heap, lookup_insert_eq. }
  rewrite (merge_run _ _ _ _ _ Hl1 Hl2).
  pose proof (split_left_fields s il)
    as (L1 & L2 & L3 & L4 & L5 & L6 & L7 & L8 & L9 & L10).
  pose proof (split_right_fields s il)
    as (R1 & R2 & R3 & R4 & R5 & R6 & R7 & R8 & R9 & R10).
  pose proof (take_drop il (events s)) as Htd.
  assert (set_minus (drop il (events s)) (take il (events s))
          = drop il (events s)) as Hminus.
  { rewrite <- Htd in Hnd at 1. rewrite fmap_app in Hnd.
    apply NoDup_app in Hnd as (_ & Hdis & Hr).
    apply set_of_id; [done|].
    intros e He Hin. apply (Hdis (eid e)); [done|].
    by apply list_elem_of_fmap_2. }
  assert (∀ es, es ≡ₚ drop il (events s) →
                sortedlist.update (take il (events s)) es = events s)
    as Horder.
  { intros es Hes. apply update_any_order; [done..| |].
    - by apply sortedlist_facts.slice_to_sorted.
    - by rewrite Hes, Htd. }
  unfold merged. cbv zeta.
  rewrite L1, R1, L2, R2, L3, L4, R4, L5, R5, L7, R7, L8.
  rewrite events_split_left, events_split_right, Hminus.
  rewrite (Horder _ (reflexivity _)).
  rewrite !eqb_reflx, !Z.eqb_refl. cbn [negb].
  rewrite (bool_decide_eq_false_2 (desktopid s ≠ desktopid s)) by tauto.
  cbn [andb].
  eexists _, _, _, _. split; [exact Hl1|]. split; [exact Hl2|].
  split; [reflexivity|].
  rewrite with_heap_heap, lookup_insert_eq. split; [reflexivity|].
  rewrite events_split_left, events_split_right, Hminus.
  fields. rewrite L6, R6, L10, R10.
  split_and!; try done.
  - by destruct (_ && _).
  - by destruct (_ && _).
  - lia.
  - lia.
  - intros Hwin.
    assert (∀ x, x ∈ take il (events s) ∨ x ∈ drop il (events s) →
                 x ∈ events s) as Hin.
    { intros x Hx. apply elem_of_app in Hx. by rewrite Htd in Hx. }
    assert (tstart s ≤ from_option time (tstart s) (head (drop il (events s)))).
    { destruct (drop il (events s)) as [|e l'] eqn:Hd; cbn; [lia|].
      apply Hwin, Hin. right. by left. }
    assert (from_option time (tend s) (list.last (take il (events s))) ≤ tend s).
    { destruct (list.last (take il (events s))) as [e|] eqn:Hl; cbn; [|lia].
      apply Hwin, Hin. left.
      apply last_Some in Hl as [l' Hl']. rewrite Hl'.
      apply elem_of_app. right. by left. }
    lia.
Qed.

Lemma split_then_merge_witness :
  ∃ w2 m,
    merge 1%nat 2%nat (split 0%nat 25 25 Examples2.w_early).2 = (inr 1%nat, w2)
    ∧ heap w2 !! 1%nat = Some m
    ∧ events m = events Examples2.early.
Proof.
  destruct (split_then_merge 0%nat 1%nat 2%nat 25 25 Examples2.w_early
              (split 0%nat 25 25 Examples2.w_early).2 Examples2.early
              eq_refl ltac:(solve_sorted))
    as (w2 & m & sl & sr & _ & _ & Hm & Hl & He & _).
  - apply (bool_decide_unpack _). by vm_compute.
  - apply (bool_decide_unpack _). by vm_compute.
  - by vm_compute.
  - by exists w2, m.
Defined.

(** ** The file descriptor table, further *)

Section FileDescriptorFacts.

Context (resolveFDRef : string → Z → Py.ostr).

Local Abbreviation open_ := (openFD resolveFDRef).
Local Abbreviation call_ := (do_fdcall resolveFDRef).
Local Abbreviation calls_ := (do_fdcalls resolveFDRef).
Local Abbreviation stored_ := (stored_path resolveFDRef).

Lemma fds_openFD (fd : Z) (p : string) (t : Z) (a : Application) :
  fds (open_ fd p t a)
  = <[fd := default [] (fds a !! fd) ++ [(stored_ p t, t, 0)]]> (fds a).
Proof. reflexivity. Qed.

Lemma fds_closeFD_ne (fd fd' t : Z) (a : Application) :
  fd ≠ fd' → fds (closeFD fd t a) !! fd' = fds a !! fd'.
Proof.
  intros Hne. unfold closeFD.
  destruct (fds a !! fd) as [l|]; [|done].
  destruct (list.last l) as [[[p t0] t1]|]; [|done].
  destruct (t1 =? 0); [|done].
  cbn [fds set_fds]. by rewrite lookup_insert_ne.
Qed.

Lemma do_fdcall_other (c : fdcall) (a : Application) (fd' : Z) :
  fd_of c ≠ fd' →
  fds (call_ a c) !! fd' = fds a !! fd'.
Proof.
  destruct c as [fd p t|fd t]; cbn [fd_of do_fdcall]; intros Hne.
  - rewrite fds_openFD. by rewrite lookup_insert_ne.
  - by apply fds_closeFD_ne.
Qed.

(** A call changes the descriptor table only. *)
Lemma do_fdcall_attrs (c : fdcall) (a : Application) :
  set_fds (fds a) (call_ a c) = a.
Proof.
  destruct a. destruct c as [fd p t|fd t]; cbn; [done|].
  unfold closeFD. cbn.
  repeat (case_match; try done).
Qed.

Lemma do_fdcalls_snoc (cs : list fdcall) (c : fdcall) (a : Application) :
  calls_ (cs ++ [c]) a = call_ (calls_ cs a) c.
Proof. unfold do_fdcalls. by rewrite foldl_app. Qed.

(** X10. Calls on other descriptors do not change what a descriptor
    resolves to, and no sequence of [openFD] and [closeFD] calls changes
    any attribute of the instance but the descriptor table. *)
Theorem fdcalls_frame (cs : list fdcall) (a : Application) (fd t : Z) :
  (∀ c, c ∈ cs → fd_of c ≠ fd) →
  fds (calls_ cs a) !! fd = fds a !! fd
  ∧ resolveFD fd t (calls_ cs a) = resolveFD fd t a
  ∧ set_fds (fds a) (calls_ cs a) = a.
Proof.
  induction cs as [|c cs IH] using rev_ind; intros Hall; [by destruct a|].
  rewrite do_fdcalls_snoc.
  destruct IH as (IH1 & IH2 & IH3).
  { intros c' Hc'. apply Hall, elem_of_app. by left. }
  assert (fds (call_ (calls_ cs a) c) !! fd = fds a !! fd) as Hfd.
  { rewrite do_fdcall_other; [done|]. apply Hall, elem_of_app. right. by left. }
  split; [done|]. split.
  - unfold resolveFD. by rewrite Hfd.
  - transitivity (set_fds (fds a)
                    (set_fds (fds (calls_ cs a)) (call_ (calls_ cs a) c)));
      [reflexivity|]. by rewrite do_fdcall_attrs.
Qed.

Lemma closeFD_length (fd fd' t : Z) (a : Application) :
  length (default [] (fds (closeFD fd t a) !! fd'))
  = length (default [] (fds a !! fd')).
Proof.
  destruct (decide (fd = fd')) as [<-|Hne];
    [|by rewrite fds_closeFD_ne].
  unfold closeFD.
  destruct (fds a !! fd) as [l|] eqn:Hl;
    [|by unfold fdentry in *; rewrite Hl].
  destruct (list.last l) as [[[p t0] t1]|];
    [|by unfold fdentry in *; rewrite Hl].
  destruct (t1 =? 0); [|by unfold fdentry in *; rewrite Hl].
  cbn [fds set_fds]. rewrite lookup_insert_eq. cbn.
  by rewrite length_insert.
Qed.

Lemma closeFD_lookup_nil (fd fd' t : Z) (a : Application) :
  fds (closeFD fd t a) !! fd' = Some [] → fds a !! fd' = Some [].
Proof.
  destruct (decide (fd = fd')) as [<-|Hne];
    [|by rewrite fds_closeFD_ne].
  unfold closeFD.
  destruct (fds a !! fd) as [l|] eqn:Hl;
    [|by unfold fdentry in *; rewrite Hl].
  destruct (list.last l) as [[[p t0] t1]|] eqn:Hlast;
    [|by unfold fdentry in *; rewrite Hl].
  destruct (t1 =? 0); [|by unfold fdentry in *; rewrite Hl].
  cbn [fds set_fds]. rewrite lookup_insert_eq. intros [= Heq].
  apply (f_equal length) in Heq. rewrite length_insert in Heq.
  destruct l; [done|discriminate Heq].
Qed.

(** X11. After any sequence of calls on an instance with an empty table,
    the list of a descriptor has one entry for each [openFD] call on it:
    [openFD] appends one entry, [closeFD] neither adds nor removes one.
    So a descriptor is in the table exactly when it was opened. *)
Theorem fdcalls_entry_count (cs : list fdcall) (a0 : Application) (fd : Z) :
  length (default [] (fds (calls_ cs (clearFDs a0)) !! fd)) = opens_of fd cs
  ∧ (is_Some (fds (calls_ cs (clearFDs a0)) !! fd) ↔ (0 < opens_of fd cs)%nat).
Proof.
  assert (∀ cs,
    length (default [] (fds (calls_ cs (clearFDs a0)) !! fd)) = opens_of fd cs
    ∧ (fds (calls_ cs (clearFDs a0)) !! fd = Some [] → False)) as Hboth.
  { clear cs. intros cs. induction cs as [|c cs [IH1 IH2]] using rev_ind.
    - split; [done|]. cbn. by rewrite lookup_empty.
    - rewrite do_fdcalls_snoc. unfold opens_of in *.
      rewrite List.filter_app, length_app, <- IH1.
      destruct c as [fd' p t|fd' t]; cbn [do_fdcall List.filter is_open_of].
      + rewrite fds_openFD. destruct (Z.eqb_spec fd' fd) as [->|Hne].
        * rewrite lookup_insert_eq. cbn. rewrite length_app. cbn.
          split; [reflexivity|]. intros [= Heq]. by destruct (default _ _).
        * by rewrite lookup_insert_ne.
      + rewrite closeFD_length. cbn. split; [lia|].
        intros Heq. by apply IH2, (closeFD_lookup_nil fd' fd t). }
  destruct (Hboth cs) as [Hlen Hne]. split; [done|].
  rewrite <- Hlen.
  destruct (fds (calls_ cs (clearFDs a0)) !! fd) as [[|e l]|] eqn:Hfd;
    unfold fdentry in *; rewrite ?Hfd in *; cbn.
  - by destruct Hne.
  - split; [lia|by eexists].
  - split; [by intros [? ?]|lia].
Qed.

Lemma resolveFD_scan_app (l : list fdentry) (x : fdentry) (t : Z) :
  resolveFD_scan (l ++ [x]) t
  = match resolveFD_scan l t with
    | Some p => Some p
    | None => resolveFD_scan [x] t
    end.
Proof.
  induction l as [|[[p t0] t1] l IH]; [done|]. cbn [app resolveFD_scan].
  by destruct (_ && _).
Qed.

Lemma resolveFD_openFD (fd : Z) (p : string) (t t' : Z) (a : Application) :
  resolveFD fd t' (open_ fd p t a)
  = match resolveFD fd t' a with
    | Some q => Some q
    | None => if t <=? t' then Some (stored_ p t) else None
    end.
Proof.
  rewrite !resolveFD_scan_eq, fds_openFD, lookup_insert_eq.
  cbn [default from_option id]. rewrite resolveFD_scan_app.
  destruct (resolveFD_scan _ t'); [done|]. cbn.
  by destruct (t <=? t').
Qed.

(** X12. Once a descriptor has been opened at some time, it resolves to a
    path at every later time, whatever the table held before: the result is
    [None] only for times before the opening. On a descriptor that was
    not in the table, it is the path stored by this call. *)
Theorem openFD_resolves (fd : Z) (p : string) (t t' : Z) (a : Application) :
  t ≤ t' →
  is_Some (resolveFD fd t' (open_ fd p t a))
  ∧ (fds a !! fd = None →
     resolveFD fd t' (open_ fd p t a) = Some (stored_ p t)).
Proof.
  intros Hle. rewrite resolveFD_openFD.
  destruct (Z.leb_spec t t'); [|lia]. split.
  - by destruct (resolveFD fd t' a).
  - intros Hnone. unfold resolveFD, fdentry in *. by rewrite Hnone.
Qed.

(** X13. A descriptor opened at [t1] on a table that did not hold it and
    closed at a time [t2] other than 0 resolves to the stored path
    exactly at the times from [t1] to [t2], both included, and to [None]
    at every other time. *)
Theorem open_close_resolve (fd : Z) (p : string) (t1 t2 t : Z)
    (a : Application) :
  fds a !! fd = None → t2 ≠ 0 →
  resolveFD fd t (closeFD fd t2 (open_ fd p t1 a))
  = if (t1 <=? t) && (t <=? t2) then Some (stored_ p t1) else None.
Proof.
  intros Hnone Ht2. unfold closeFD. rewrite fds_openFD, lookup_insert_eq.
  unfold fdentry in *. rewrite Hnone. cbn [default from_option id app].
  cbn [list.last]. rewrite Z.eqb_refl. cbn [length pred].
  unfold resolveFD. cbn [fds set_fds]. rewrite lookup_insert_eq.
  cbn. destruct (Z.eqb_spec t2 0); [done|]. cbn.
  by destruct (_ && _).
Qed.

End FileDescriptorFacts.

Lemma fdcalls_frame_witness :
  resolveFD 3 15 (do_fdcalls (λ _ _, None) [Open 4 "/tmp/y" 12; Close 4 14]
                    (openFD (λ _ _, None) 3 "/tmp/x" 10
                       (clearFDs Examples.running)))
  = resolveFD 3 15 (openFD (λ _ _, None) 3 "/tmp/x" 10
                      (clearFDs Examples.running)).
Proof.
  apply (fdcalls_frame (λ _ _, None) [Open 4 "/tmp/y" 12; Close 4 14]).
  intros c [->|[->|Hc]%elem_of_cons]%elem_of_cons; [done..|].
  by apply not_elem_of_nil in Hc.
Defined.

Lemma openFD_resolves_witness :
  resolveFD 3 15 (openFD (λ _ _, None) 3 "/tmp/x" 10
                    (clearFDs Examples.running))
  = Some "/tmp/x".
Proof.
  apply (openFD_resolves (λ _ _, None) 3 "/tmp/x" 10 15
           (clearFDs Examples.running)); [lia|reflexivity].
Defined.

Lemma open_close_resolve_witness :
  resolveFD 3 25 (closeFD 3 20 (openFD (λ _ _, None) 3 "/tmp/x" 10
                                  (clearFDs Examples.running)))
  = None.
Proof.
  by rewrite (open_close_resolve (λ _ _, None) 3 "/tmp/x" 10 20 25
                (clearFDs Examples.running) eq_refl ltac:(lia)).
Defined.

Lemma last_insert_pred {A : Type} (l : list A) (x : A) :
  l ≠ [] → list.last (<[pred (length l) := x]> l) = Some x.
Proof.
  intros Hne. destruct l as [|y l _] using rev_ind; [done|].
  rewrite length_app. cbn [length].
  replace (pred (length l + 1)) with (length l + 0)%nat by lia.
  rewrite insert_app_r. cbn. by rewrite last_snoc.
Qed.

(** X14. Closing a descriptor twice is closing it once: after a
    [closeFD] at a time other than 0, a second [closeFD] on the same
    descriptor changes nothing, whatever its time. *)
Theorem closeFD_idempotent (fd t1 t2 : Z) (a : Application) :
  t1 ≠ 0 → closeFD fd t2 (closeFD fd t1 a) = closeFD fd t1 a.
Proof.
  intros Ht1. unfold closeFD at 2 3.
  destruct (fds a !! fd) as [l|] eqn:Hl.
  - destruct (list.last l) as [[[p t0] t]|] eqn:Hlast.
    + destruct (Z.eqb_spec t 0) as [->|Hne].
      * unfold closeFD. cbn [fds set_fds]. rewrite lookup_insert_eq.
        rewrite last_insert_pred by (by intros ->).
        by destruct (Z.eqb_spec t1 0).
      * unfold closeFD, fdentry in *. rewrite Hl, Hlast.
        by destruct (Z.eqb_spec t 0).
    + unfold closeFD, fdentry in *. by rewrite Hl, Hlast.
  - unfold closeFD, fdentry in *. by rewrite Hl.
Qed.

Lemma closeFD_idempotent_witness :
  closeFD 3 30 (closeFD 3 20 (openFD (λ _ _, None) 3 "/tmp/x" 10
                                 (clearFDs Examples.running)))
  = closeFD 3 20 (openFD (λ _ _, None) 3 "/tmp/x" 10
                    (clearFDs Examples.running)).
Proof. apply closeFD_idempotent. lia. Defined.

(** ** Desktop identifiers and the cache, further *)

Section CacheFacts.

Context (DESKTOPPATHS : list string).
Context (realpath : string → string).
Context (parse : string → option DesktopEntry).
Context (desktopre_group0 : string → option string).

Local Abbreviation probe_ := (probe realpath parse desktopre_group0).
Local Abbreviation depath_ := (depath_of realpath).
Local Abbreviation getDesktopFile_ :=
  (__getDesktopFile DESKTOPPATHS realpath parse desktopre_group0).
Local Abbreviation getDesktopId_ :=
  (getDesktopIdFromDesktopUri DESKTOPPATHS realpath parse desktopre_group0).
Local Abbreviation new_ :=
  (__init__ DESKTOPPATHS realpath parse desktopre_group0).

(** The loop stops at the first location whose descriptor parses. *)
Lemma probe_first (pre post : list string) (p token : string)
    (de de' : DesktopEntry) (w : world) :
  (∀ q, q ∈ pre → parse (depath_ q token) = None) →
  parse (depath_ p token) = Some de' →
  probe_ (pre ++ p :: post) token de w =
  (match desktopre_group0 (depath_ p token) with
   | Some g => inr (Some (Py.lower g), de')
   | None => inl (AttributeError "groups")
   end,
   mkWorld (heap w) (desktopCache w)
           (probed w ++ ((λ q, depath_ q token) <$> pre)
                     ++ [depath_ p token])).
Proof.
  revert w. induction pre as [|q pre IH]; intros w Hpre Hp.
  - cbn [app probe]. rewrite bind_run. unfold de_parse at 1. rewrite Hp.
    by destruct (desktopre_group0 _).
  - cbn [app probe]. rewrite bind_run. unfold de_parse at 1.
    rewrite (Hpre q) by (by left).
    rewrite IH; [|by intros q' Hq'; apply Hpre; right|done].
    cbn [heap desktopCache probed fmap list_fmap].
    by rewrite <- !app_assoc.
Qed.

(** The loop touches the probe log only. *)
Lemma probe_frame (paths : list string) (token : string) (de : DesktopEntry)
    (w w1 : world) (x : exn + Py.ostr * DesktopEntry) :
  probe_ paths token de w = (x, w1) →
  heap w1 = heap w ∧ desktopCache w1 = desktopCache w.
Proof.
  revert w. induction paths as [|q paths IH]; intros w.
  - by intros [= <- <-].
  - cbn [probe]. rewrite bind_run. unfold de_parse at 1.
    destruct (parse _) as [de'|].
    + destruct (desktopre_group0 _); by intros [= <- <-].
    + intros H. by apply IH in H.
Qed.

Lemma getDesktopFile_facts (token : string) (w w1 : world)
    (x : exn + Py.ostr * DesktopEntry) :
  cache_wf w →
  getDesktopFile_ token w = (x, w1) →
  cache_wf w1 ∧ heap w1 = heap w
  ∧ (∀ k, is_Some (desktopCache w !! k) → is_Some (desktopCache w1 !! k))
  ∧ (∀ r, x = inr r → desktopCache w1 !! r.1 = Some r)
  ∧ (∀ e, x = inl e → desktopCache w1 = desktopCache w)
  ∧ (is_Some (desktopCache w !! Some token) → w1 = w).
Proof.
  intros Hwf. unfold __getDesktopFile. rewrite bind_run. unfold cache_get at 1.
  destruct (desktopCache w !! Some token) as [r|] eqn:Hc;
    unfold Py.ostr in *; rewrite ?Hc.
  - unfold mret, M_ret. intros [= <- <-]. split_and!; try done.
    intros r' [= <-]. pose proof (Hwf _ _ Hc) as Hk.
    unfold Py.ostr in *. by rewrite Hk.
  - rewrite bind_run.
    destruct (probe_ DESKTOPPATHS token DesktopEntry_new w) as [[e|r] w2] eqn:Hp;
      apply probe_frame in Hp as [Hh Hcache].
    + intros [= <- <-]. split_and!; try done.
      * intros k v. rewrite Hcache. apply Hwf.
      * intros k. by rewrite Hcache.
    + intros [= <- <-]. unfold cache_wf. cbn [heap desktopCache].
      rewrite ?Hcache. unfold Py.ostr in *.
      split_and!; try done.
      * intros k v. destruct (decide (r.1 = k)) as [<-|Hne].
        -- rewrite lookup_insert_eq. by intros [= <-].
        -- rewrite lookup_insert_ne by done. apply Hwf.
      * intros k Hk. destruct (decide (r.1 = k)) as [<-|Hne].
        -- rewrite lookup_insert_eq. by eexists.
        -- by rewrite lookup_insert_ne.
      * intros r' [= <-]. by rewrite lookup_insert_eq.
Qed.

(** X15. A lookup of an identifier that returns a canonical identifier
    leaves the pair in the cache under that canonical identifier, so a
    lookup of the canonical identifier itself right after returns the same
    pair from the cache: the world, with its probe log, is unchanged. *)
Theorem canonical_lookup_cached (token f : string) (de : DesktopEntry)
    (w w1 : world) :
  cache_wf w →
  getDesktopFile_ token w = (inr (Some f, de), w1) →
  getDesktopFile_ f w1 = (inr (Some f, de), w1)
  ∧ desktopCache w1 !! Some f = Some (Some f, de).
Proof.
  intros Hwf Hrun.
  destruct (getDesktopFile_facts _ _ _ _ Hwf Hrun) as (_ & _ & _ & Hr & _).
  specialize (Hr _ eq_refl). cbn in Hr. split; [|done].
  unfold __getDesktopFile. rewrite bind_run. unfold cache_get at 1.
  unfold Py.ostr in *. by rewrite Hr.
Qed.

(** X16. Construction keeps the cache well formed and never removes a
    key from it, whether it returns or raises; it leaves the instances of
    the heap as they were; and the identifier of an instance it returns
    is a key of the cache, stored with itself, which is what [getSetting]
    looks up. *)
Theorem init_cache (d path interp : Py.ostr) (pid tstart tend : Z)
    (w w' : world) (x : exn + loc) :
  cache_wf w →
  new_ d path pid tstart tend interp w = (x, w') →
  cache_wf w'
  ∧ (∀ k, is_Some (desktopCache w !! k) → is_Some (desktopCache w' !! k))
  ∧ (∀ k a, heap w !! k = Some a → heap w' !! k = Some a)
  ∧ (∀ l, x = inr l →
       ∃ a did de,
         heap w' !! l = Some a ∧ desktopid a = Some did
         ∧ desktopCache w' !! Some did = Some (Some did, de)).
Proof.
  intros Hwf. unfold __init__.
  destruct (Py.truthy d) eqn:Hd.
  - unfold __initFromDesktopID, getDesktopIdFromDesktopUri.
    destruct (Py.truthy (Some (Py.lower (default "" d)))); cbn [negb].
    + rewrite !bind_bind, bind_run.
      destruct (getDesktopFile_ _ w) as [[e|[did de]] w1] eqn:Hg;
        destruct (getDesktopFile_facts _ _ _ _ Hwf Hg)
          as (Hwf1 & Hh & Hk & Hr & _).
      * intros [= <- <-]. split_and!; try done. by rewrite Hh.
      * specialize (Hr _ eq_refl). cbn [fst] in Hr.
        rewrite bind_ret. cbn [fst snd].
        destruct did as [did|].
        -- destruct (String.eqb did "").
           ++ rewrite bind_raise. intros [= <- <-].
              split_and!; try done. by rewrite Hh.
           ++ rewrite !bind_ret. unfold alloc. intros [= <- <-].
              cbn [heap desktopCache].
              assert (heap w1 !! fresh (dom (heap w1)) = None) as Hfresh
                by apply not_elem_of_dom, is_fresh.
              split_and!; try done.
              ** intros k a Hka. rewrite Hh in *.
                 rewrite lookup_insert_ne; [done|]. congruence.
              ** intros l [= <-]. eexists _, did, de.
                 rewrite lookup_insert_eq. by split_and!.
        -- rewrite bind_raise. intros [= <- <-].
           split_and!; try done. by rewrite Hh.
    + rewrite !bind_bind, bind_ret. cbn [fst]. rewrite !bind_raise.
      by intros [= <- <-].
  - destruct (Py.truthy path); rewrite bind_raise; by intros [= <- <-].
Qed.

(** X17. For an identifier and an interpreter made of ASCII characters,
    an instance that construction returns is a new object, added to the
    heap at an address that was free; it was built from an identifier, and
    a path given along with the identifier is ignored. Its pid and times
    are the arguments, the interpreter is the argument in lower case (or
    [None]), it has no path, no command line, no event and no descriptor,
    and its key is made of its identifier, pid and time of start. *)
Theorem init_returns (d pth interp : Py.ostr) (p ts te : Z)
    (w w' : world) (l : loc) :
  from_option is_ascii true d = true →
  from_option is_ascii true interp = true →
  new_ d pth p ts te interp w = (inr l, w') →
  Py.truthy d = true
  ∧ heap w !! l = None
  ∧ ∃ a,
      heap w' = <[l := a]> (heap w)
      ∧ init a = true ∧ Py.truthy (desktopid a) = true
      ∧ pid a = p ∧ tstart a = ts ∧ tend a = te
      ∧ interpreterid a
        = (if Py.truthy interp then Py.lower <$> interp else None)
      ∧ path a = None ∧ cmdline a = None
      ∧ events a = [] ∧ fds a = ∅
      ∧ uid_consistent a.
Proof.
  intros _ _. unfold __init__. destruct (Py.truthy d) eqn:Hd.
  - rewrite !bind_bind, bind_run.
    destruct (__initFromDesktopID _ _ _ _ _ w) as [[e|did] w1] eqn:Hi;
      [done|].
    assert (heap w1 = heap w ∧ Py.truthy (Some did) = true) as [Hh Hdid].
    { revert Hi. unfold __initFromDesktopID, getDesktopIdFromDesktopUri.
      destruct (Py.truthy (Some (Py.lower (default "" d)))); cbn [negb].
      - rewrite !bind_bind, bind_run.
        destruct (getDesktopFile_ _ w) as [[e|[did' de]] w2] eqn:Hg; [done|].
        rewrite bind_ret. cbn [fst].
        destruct did' as [did'|]; [|done].
        destruct (String.eqb did' "") eqn:He; [done|].
        intros [= <- <-]. split; [|by cbn; rewrite He].
        clear -Hg. revert Hg. unfold __getDesktopFile.
        rewrite bind_run. unfold cache_get at 1.
        destruct (desktopCache w !! _); [by intros [= _ <-]|].
        rewrite bind_run.
        destruct (probe_ _ _ _ w) as [[e|r] w3] eqn:Hp; [done|].
        apply probe_frame in Hp as [Hh _]. by intros [= _ <-].
      - by rewrite bind_ret. }
    rewrite bind_ret. unfold alloc. intros [= <- <-].
    split; [done|]. rewrite <- Hh.
    split; [apply not_elem_of_dom, is_fresh|].
    eexists. split; [reflexivity|]. by split_and!.
  - destruct (Py.truthy pth); by rewrite bind_raise.
Qed.

(** X18. On a cache miss, the search stops at the first location whose
    descriptor parses: the locations before it are tried in order, those
    after it are not tried. When the first group of the pattern is made
    of ASCII characters, the identifier is that group in lower case, and
    the identifier is stored in the cache under itself, paired with the
    entry that is returned; nothing is said of what that entry holds. *)
Theorem lookup_first_location (pre post : list string) (dir token g : string)
    (w : world) :
  DESKTOPPATHS = pre ++ dir :: post →
  desktopCache w !! Some token = None →
  (∀ q, q ∈ pre → parse (depath_ q token) = None) →
  is_Some (parse (depath_ dir token)) →
  desktopre_group0 (depath_ dir token) = Some g →
  is_ascii g = true →
  ∃ de,
    getDesktopFile_ token w =
    (inr (Some (Py.lower g), de),
     mkWorld (heap w)
             (<[Some (Py.lower g) := (Some (Py.lower g), de)]> (desktopCache w))
             (probed w ++ ((λ q, depath_ q token) <$> pre)
                       ++ [depath_ dir token])).
Proof.
  intros Hpaths Hmiss Hpre [de' Hparse] Hg _. exists de'.
  unfold __getDesktopFile.
  rewrite bind_run. unfold cache_get at 1. unfold Py.ostr in *.
  rewrite Hmiss, bind_run, Hpaths.
  rewrite (probe_first pre post dir token _ de' w Hpre Hparse), Hg.
  reflexivity.
Qed.


End CacheFacts.

Lemma cache_wf_world0 : cache_wf world0.
Proof. intros k v. cbn. by rewrite lookup_empty. Qed.

Lemma canonical_lookup_cached_witness :
  ∃ w1 de,
    __getDesktopFile Examples.paths id Examples.parse Examples.group0
      "ristretto.desktop" world0 = (inr (Some "ristretto", de), w1)
    ∧ __getDesktopFile Examples.paths id Examples.parse Examples.group0
        "ristretto" w1 = (inr (Some "ristretto", de), w1).
Proof.
  eexists _, _. split; [by vm_compute|].
  apply (canonical_lookup_cached Examples.paths id Examples.parse
           Examples.group0 "ristretto.desktop" "ristretto" _ world0 _
           cache_wf_world0).
  by vm_compute.
Defined.

Lemma init_cache_witness :
  cache_wf (Examples.new_Application (Some "ristretto.desktop") None 21 0 300
              None world0).2.
Proof.
  apply (init_cache Examples.paths id Examples.parse Examples.group0
           (Some "ristretto.desktop") None None 21 0 300 world0 _
           (Examples.new_Application (Some "ristretto.desktop") None 21 0 300
              None world0).1 cache_wf_world0).
  apply surjective_pairing.
Defined.

Lemma init_returns_witness :
  ∃ a,
    heap (Examples.new_Application (Some "ristretto.desktop")
            (Some "/usr/bin/ristretto") 21 0 300 (Some "Python") world0).2
    = <[0%nat := a]> ∅
    ∧ path a = None ∧ interpreterid a = Some "python".
Proof.
  destruct (init_returns Examples.paths id Examples.parse Examples.group0
              (Some "ristretto.desktop") (Some "/usr/bin/ristretto")
              (Some "Python") 21 0 300 world0
              (Examples.new_Application (Some "ristretto.desktop")
                 (Some "/usr/bin/ristretto") 21 0 300 (Some "Python")
                 world0).2 0%nat)
    as (_ & _ & a & Hh & _ & _ & _ & _ & _ & Hi & Hp & _).
  - reflexivity.
  - reflexivity.
  - by vm_compute.
  - exists a. by split_and!.
Defined.

Lemma lookup_first_location_witness :
  ∃ de,
    __getDesktopFile paths_rev id Examples.parse Examples.group0
      "ristretto" world0
    = (inr (Some "ristretto", de),
       mkWorld ∅ {[ Some "ristretto" := (Some "ristretto", de) ]}
               ["/usr/local/share/applications/ristretto.desktop";
                "/usr/share/applications/ristretto.desktop"]).
Proof.
  apply (lookup_first_location paths_rev id Examples.parse Examples.group0
           ["/usr/local/share/applications/"] []
           "/usr/share/applications/" "ristretto" "ristretto" world0).
  - reflexivity.
  - reflexivity.
  - intros q ->%list_elem_of_singleton. reflexivity.
  - eexists. reflexivity.
  - reflexivity.
  - reflexivity.
Defined.


(** ** The scheme prefix of an identifier *)

Lemma substring_all (s : string) : String.substring 0 (String.length s) s = s.
Proof. induction s as [|c s IH]; [done|]. cbn. by rewrite IH. Qed.

Lemma defile_of_prefixed (x : string) :
  defile_of ("application://" ++ x) = x.
Proof.
  unfold defile_of, Py.startswith, Py.slice_from.
  cbv [String.app String.append String.prefix]. cbn.
  rewrite Nat.sub_0_r, substring_all. by destruct x.
Qed.

(** X20. An identifier given with the [application://] prefix is looked
    up as the identifier without the prefix: the two calls return the same
    result and leave the same world. The empty identifier is the
    exception: alone it returns [(None, None)] with no lookup, behind the
    prefix it is looked up as an empty identifier. *)
Theorem uri_prefix_stripped (DESKTOPPATHS : list string)
    (realpath : string → string) (parse : string → option DesktopEntry)
    (desktopre_group0 : string → option string) (x : string) (w : world) :
  Py.truthy (Some x) = true →
  Py.startswith x "application://" = false →
  getDesktopIdFromDesktopUri DESKTOPPATHS realpath parse desktopre_group0
    ("application://" ++ x) w
  = getDesktopIdFromDesktopUri DESKTOPPATHS realpath parse desktopre_group0
      x w.
Proof.
  intros Ht Hp. unfold getDesktopIdFromDesktopUri.
  assert (Py.truthy (Some ("application://" +:+ x)) = true) as ->
    by reflexivity.
  rewrite Ht, defile_of_prefixed. cbn [negb].
  unfold defile_of. by rewrite Hp.
Qed.

Lemma uri_prefix_stripped_witness :
  getDesktopIdFromDesktopUri Examples.paths id Examples.parse Examples.group0
    "application://ristretto.desktop" world0
  = getDesktopIdFromDesktopUri Examples.paths id Examples.parse Examples.group0
      "ristretto.desktop" world0.
Proof.
  apply (uri_prefix_stripped Examples.paths id Examples.parse Examples.group0
           "ristretto.desktop" world0); reflexivity.
Defined.

(** ** hasSameDesktopId and merge *)

(** X9. For two instances with the same pid and initialisation status,
    where the identifier of [other] is what the pattern extracts from
    itself, [hasSameDesktopId(other, resolveInterpreter=True)] returns
    [True] exactly when [merge(other)] succeeds, and [False] exactly when
    [merge] raises on the identifiers. Without [resolveInterpreter] it
    returns whether the two identifiers are equal. *)
Theorem hasSameDesktopId_merge
    (desktopre_match : string → option Py.ostr)
    (self other : loc) (w : world) (s o : Application) (d : string) :
  heap w !! self = Some s → heap w !! other = Some o →
  init s = init o → pid s = pid o →
  desktopid o = Some d → desktopre_match d = Some (Some d) →
  (hasSameDesktopId desktopre_match s (inl o) true = inr true
   ↔ ∃ w', merge self other w = (inr self, w'))
  ∧ (hasSameDesktopId desktopre_match s (inl o) true = inr false
     ↔ merge self other w = (inl ValueError_desktopid_mismatch, w))
  ∧ hasSameDesktopId desktopre_match s (inl o) false
    = inr (bool_decide (desktopid s = desktopid o)).
Proof.
  intros Hs Ho Hi Hp Hd Hm.
  rewrite (merge_run _ _ _ _ _ Hs Ho).
  destruct (merged_cases s o) as (_ & _ & Hfail & Hok).
  unfold hasSameDesktopId. rewrite Hd, Hm. cbn [andb].
  rewrite <- Hd. split_and!; [| |by case_bool_decide].
  all: destruct (decide (desktopid s = desktopid o)) as [H1|H1];
    [rewrite (bool_decide_eq_true_2 _ H1)
    |rewrite (bool_decide_eq_false_2 _ H1)].
  all: destruct (decide (interpreterid s = desktopid o)) as [H2|H2];
    [rewrite ?(bool_decide_eq_true_2 _ H2)
    |rewrite ?(bool_decide_eq_false_2 _ H2)].
  all: destruct (decide (desktopid s = interpreterid o)) as [H3|H3];
    [rewrite ?(bool_decide_eq_true_2 _ H3)
    |rewrite ?(bool_decide_eq_false_2 _ H3)].
  all: try (rewrite (Hfail Hi Hp H1 H2 H3);
            split; first [done | by intros [? [=]]]).
  all: assert (mergeable s o) as [s' Hs']%Hok
    by (unfold mergeable; tauto).
  all: rewrite Hs'; split; try done; eauto.
Qed.

Lemma hasSameDesktopId_merge_witness :
  hasSameDesktopId (λ s, Some (Some s)) Examples.script
    (inl Examples.interpreter) true = inr true
  ∧ hasSameDesktopId (λ s, Some (Some s)) Examples.script
      (inl Examples.interpreter) false = inr false.
Proof.
  destruct (hasSameDesktopId_merge (λ s, Some (Some s)) 0%nat 1%nat
              Examples.w_script_interpreter Examples.script
              Examples.interpreter "python"
              eq_refl eq_refl eq_refl eq_refl eq_refl eq_refl)
    as (Htrue & _ & Hplain).
  split; [|exact Hplain].
  apply Htrue. eexists. by vm_compute.
Defined.
